(** * Typir: lazy type resolution and relation validation

    A shallow embedding of two modules of the Typir core:

    - the type references: [TypeReference] (a listener-driven handle that
      keeps itself resolved while the type graph and the inference rules
      change) and [resolveTypeSelector];
    - the validation: [DefaultValidationConstraints] and
      [DefaultValidationCollector].

    Objects with identity (types, references, listeners, domain elements)
    are handles; the mutable state shared between the references and their
    two collaborators is one explicit [World] that every method threads. *)

From stdpp Require Import gmap strings list fin_maps.

Open Scope string_scope.
Open Scope list_scope.

(** ** Values *)

(** A [Type] node of the graph: an object (its identity is [type_obj]) with
    an [identifier]. [===] on types is equality of these records. *)
Record TypirType := mkType { type_obj : nat; identifier : string }.

Global Instance TypirType_eq_dec : EqDecision TypirType.
Proof. solve_decision. Defined.

(** A TypeScript value of static type [unknown] as far as the checked code
    tells its shapes apart: [undefined], a [Type] (what [isType] accepts), or
    any other value of the host language, given by its handle. *)
Inductive Unknown :=
| Undefined
| TypeValue (t : TypirType)
| DomainElement (d : nat).

Global Instance Unknown_eq_dec : EqDecision Unknown.
Proof. solve_decision. Defined.

Definition isType (v : Unknown) : bool :=
  match v with TypeValue _ => true | _ => false end.

(** [TypirProblem]: an opaque problem record; only its [$problem] tag and a
    text are kept. *)
Record TypirProblem := mkProblem { problem_tag : string; problem_text : string }.

(** What [inferType] answers: a [Type], or the list of inference problems. *)
Inductive InferenceResult :=
| Inferred (t : TypirType)
| NotInferred (problems : list TypirProblem).

(** A function either returns or throws an [Error] with a message. *)
Inductive Outcome (A : Type) :=
| Return (a : A)
| Throw (msg : string).
Arguments Return {A} a.
Arguments Throw {A} msg.

(** ** Validation *)

Inductive Severity := error | warning | info | hint.

(** [TypeCheckStrategy] is a union of string literals declared outside the
    two modules; it is only passed on and interpolated, so it is a string. *)
Definition TypeCheckStrategy := string.

Record ValidationProblem := mkValidationProblem {
  domainElement : Unknown;
  domainProperty : option string;
  domainIndex : option Z;
  severity : Severity;
  message : string;
  subProblems : option (list TypirProblem)
}.

(** [Partial<ValidationMessageDetails>]: every field may be missing. *)
Record PartialDetails := mkDetails {
  details_domainElement : option Unknown;
  details_domainProperty : option string;
  details_domainIndex : option Z;
  details_severity : option Severity;
  details_message : option string
}.

Record AnnotatedTypeAfterValidation := mkAnnotated {
  annotated_type : TypirType;
  userRepresentation : string;
  name : string
}.

Definition ValidationMessageProvider :=
  AnnotatedTypeAfterValidation -> AnnotatedTypeAfterValidation -> PartialDetails.

Definition ValidationRule := Unknown -> list ValidationProblem.

Section Constraints.
(** The services of [this.typir] that the constraints call. *)
Variable inferType : Unknown -> InferenceResult.
Variable createTypeCheckStrategy :
  TypeCheckStrategy -> TypirType -> TypirType -> option TypirProblem.
Variable printType : TypirType -> string.

Definition annotateType (type : TypirType) : AnnotatedTypeAfterValidation :=
  {| annotated_type := type;
     userRepresentation := printType type;
     name := identifier type |}.

(** [isType(x) ? x : this.typir.inference.inferType(x)], followed by the
    later [isType] test on the result. *)
Definition typeOf (v : Unknown) : option TypirType :=
  match v with
  | TypeValue t => Some t
  | _ => match inferType v with
         | Inferred t => Some t
         | NotInferred _ => None
         end
  end.

Definition defaultMessage (actualType expectedType : TypirType)
    (strategy : TypeCheckStrategy) (negated : bool) : string :=
  "'" +:+ identifier actualType +:+ "' is "
      +:+ (if negated then EmptyString else "not ")
      +:+ "related to '" +:+ identifier expectedType
      +:+ "' regarding " +:+ strategy +:+ ".".

Definition problemFrom (details : PartialDetails) (domainNode : Unknown)
    (actualType expectedType : TypirType) (strategy : TypeCheckStrategy)
    (negated : bool) (subs : list TypirProblem) : ValidationProblem :=
  {| domainElement := default domainNode (details_domainElement details);
     domainProperty := details_domainProperty details;
     domainIndex := details_domainIndex details;
     severity := default error (details_severity details);
     message := default (defaultMessage actualType expectedType strategy negated)
                        (details_message details);
     subProblems := Some subs |}.

Definition ensureNodeRelatedWithType (domainNode expected : Unknown)
    (strategy : TypeCheckStrategy) (negated : bool)
    (message : ValidationMessageProvider) : list ValidationProblem :=
  match domainNode, expected with
  | Undefined, _ | _, Undefined => []
  | _, _ =>
    match typeOf domainNode, typeOf expected with
    | Some actualType, Some expectedType =>
      match createTypeCheckStrategy strategy actualType expectedType with
      | Some comparisonResult =>
        if negated then []
        else
          let details := message (annotateType actualType) (annotateType expectedType) in
          [problemFrom details domainNode actualType expectedType strategy negated
                       [comparisonResult]]
      | None =>
        if negated then
          let details := message (annotateType actualType) (annotateType expectedType) in
          [problemFrom details domainNode actualType expectedType strategy negated []]
        else []
      end
    | _, _ => []
    end
  end.

Definition ensureNodeIsAssignable (sourceNode expected : Unknown)
    (message : ValidationMessageProvider) : list ValidationProblem :=
  ensureNodeRelatedWithType sourceNode expected "ASSIGNABLE_TYPE" false message.

Definition ensureNodeIsEquals (sourceNode expected : Unknown)
    (message : ValidationMessageProvider) : list ValidationProblem :=
  ensureNodeRelatedWithType sourceNode expected "EQUAL_TYPE" false message.

Definition ensureNodeHasNotType (sourceNode notExpected : Unknown)
    (message : ValidationMessageProvider) : list ValidationProblem :=
  ensureNodeRelatedWithType sourceNode notExpected "EQUAL_TYPE" true message.
End Constraints.

(** [DefaultValidationCollector]: its state is the array [validationRules]. *)
Definition addValidationRules (rules : list ValidationRule)
    (validationRules : list ValidationRule) : list ValidationRule :=
  validationRules ++ rules.

(** The loop of [validate]: [problems.push(...rule(domainElement))] for each
    rule, starting from the empty array. *)
Definition validate (validationRules : list ValidationRule)
    (domainElement : Unknown) : list ValidationProblem :=
  foldl (fun problems rule => problems ++ rule domainElement) [] validationRules.

(** ** Type selectors and references *)

(** References and their listeners are objects; they are named by handles. *)
Definition RefId := nat.
Definition ListenerId := nat.

(** Modelled from the spec: [TypeInitializer] is declared outside the two
    modules; section 6 gives it [getTypeInitial() -> Type] and
    [getTypeFinal() -> Type]. *)
Record TypeInitializer := mkInitializer {
  getTypeInitial : TypirType;
  getTypeFinal : TypirType
}.

(** [TypeSelector], in the order in which both resolution functions test
    the shapes. A function selector is a thunk; a chain of thunks is finite
    here (a cyclic chain does not return in the source either). *)
Inductive TypeSelector :=
| SelType (t : TypirType)
| SelString (id : string)
| SelInitializer (i : TypeInitializer)
| SelReference (r : RefId)
| SelFunction (f : unit -> TypeSelector)
| SelDomain (d : nat).

(** The fields of a [TypeReference] object ([services] is the world). *)
Record TypeReference := mkReference {
  selector : TypeSelector;
  resolvedType : option TypirType;
  listeners : list ListenerId
}.

(** [TypeEdge] is opaque for the references. *)
Record TypeEdge := mkEdge { edge_from : TypirType; edge_to : TypirType; edge_kind : string }.

(** What the host can observe: every call of a listener callback, and what a
    callback saw when it called [getType()] on a reference. *)
Inductive Event :=
| Resolved (l : ListenerId) (r : RefId) (resolved : TypirType)
| Invalidated (l : ListenerId) (r : RefId) (previousType : option TypirType)
| SawType (l : ListenerId) (r : RefId) (seen : option TypirType).

Global Instance Event_eq_dec : EqDecision Event.
Proof. solve_decision. Defined.

(** The shared mutable state: the type graph (its nodes and its listener
    array), the inference collector (its current answers and its listener
    array), the heap of [TypeReference] objects, and the log of callbacks. *)
Record World := mkWorld {
  graph_nodes : gmap string TypirType;
  graph_listeners : list RefId;
  inference : Unknown -> InferenceResult;
  inference_listeners : list RefId;
  refs : gmap RefId TypeReference;
  trace : list Event
}.

Definition empty_world : World :=
  {| graph_nodes := ∅; graph_listeners := [];
     inference := fun _ => NotInferred [];
     inference_listeners := []; refs := ∅; trace := [] |}.

Definition set_graph_nodes (f : gmap string TypirType -> gmap string TypirType)
    (w : World) : World :=
  mkWorld (f (graph_nodes w)) (graph_listeners w) (inference w)
          (inference_listeners w) (refs w) (trace w).

Definition set_graph_listeners (f : list RefId -> list RefId) (w : World) : World :=
  mkWorld (graph_nodes w) (f (graph_listeners w)) (inference w)
          (inference_listeners w) (refs w) (trace w).

Definition set_inference (i : Unknown -> InferenceResult) (w : World) : World :=
  mkWorld (graph_nodes w) (graph_listeners w) i
          (inference_listeners w) (refs w) (trace w).

Definition set_inference_listeners (f : list RefId -> list RefId) (w : World) : World :=
  mkWorld (graph_nodes w) (graph_listeners w) (inference w)
          (f (inference_listeners w)) (refs w) (trace w).

Definition set_refs (f : gmap RefId TypeReference -> gmap RefId TypeReference)
    (w : World) : World :=
  mkWorld (graph_nodes w) (graph_listeners w) (inference w)
          (inference_listeners w) (f (refs w)) (trace w).

Definition log (e : Event) (w : World) : World :=
  mkWorld (graph_nodes w) (graph_listeners w) (inference w)
          (inference_listeners w) (refs w) (trace w ++ [e]).

(** [const index = a.indexOf(x); if (index >= 0) a.splice(index, 1)]. *)
Fixpoint splice_first {A} `{EqDecision A} (x : A) (a : list A) : list A :=
  match a with
  | [] => []
  | y :: a' => if decide (x = y) then a' else y :: splice_first x a'
  end.

(** *** The two collaborators, as far as a reference calls them *)

(** Modelled from the spec: the [TypeGraph] class is outside the two modules;
    section 6 gives it [getType(identifier) -> Type|absent] and
    [addListener/removeListener(graphListener)]. *)
Definition graph_getType (key : string) (w : World) : option TypirType :=
  graph_nodes w !! key.

Definition graph_addListener (r : RefId) (w : World) : World :=
  set_graph_listeners (fun a => a ++ [r]) w.

Definition graph_removeListener (r : RefId) (w : World) : World :=
  set_graph_listeners (splice_first r) w.

(** Modelled from the spec: the inference collector is outside the two
    modules; section 6 gives it [inferType(domainValue)] and
    [addListener/removeListener(inferenceListener)]. *)
Definition inferType (v : Unknown) (w : World) : InferenceResult := inference w v.

Definition inference_addListener (r : RefId) (w : World) : World :=
  set_inference_listeners (fun a => a ++ [r]) w.

Definition inference_removeListener (r : RefId) (w : World) : World :=
  set_inference_listeners (splice_first r) w.

(** *** [TypeReference] *)

Definition getType (r : RefId) (w : World) : option TypirType :=
  refs w !! r ≫= resolvedType.

Definition listenersOf (r : RefId) (w : World) : list ListenerId :=
  from_option listeners [] (refs w !! r).

Definition set_resolvedType (r : RefId) (v : option TypirType) (w : World) : World :=
  set_refs (alter (fun o => mkReference (selector o) v (listeners o)) r) w.

Definition set_listeners (r : RefId) (f : list ListenerId -> list ListenerId)
    (w : World) : World :=
  set_refs (alter (fun o => mkReference (selector o) (resolvedType o) (f (listeners o))) r) w.

Definition stopResolving (r : RefId) (w : World) : World :=
  inference_removeListener r (graph_removeListener r w).

(** [this.stopResolving(); this.listeners.splice(0, this.listeners.length)] *)
Definition deconstruct (r : RefId) (w : World) : World :=
  set_listeners r (fun _ => []) (stopResolving r w).

Definition removeListener (r : RefId) (l : ListenerId) (w : World) : World :=
  set_listeners r (splice_first l) w.

Fixpoint tryToResolve (w : World) (s : TypeSelector) : option TypirType :=
  match s with
  | SelType t => Some t
  | SelString key => graph_getType key w
  | SelInitializer i => Some (getTypeInitial i)
  | SelReference r' => getType r' w
  | SelFunction f => tryToResolve w (f tt)
  | SelDomain d =>
    match inferType (DomainElement d) w with
    | Inferred t => Some t
    | NotInferred _ => None
    end
  end.

Inductive ResolveResult := ALREADY_RESOLVED | SUCCESSFULLY_RESOLVED | RESOLVING_FAILED.

(** What the body of a listener callback does. The callbacks are code of the
    host; here a body is a sequence of calls of the public methods of
    references: it may read a reference, change listener lists (also of the
    reference that is just notifying) and deconstruct references. A body
    that changes the graph or the rule set, or that asks for the current
    state with [addListener(l, true)], would start a nested notification;
    such bodies are not covered. *)
Inductive Action :=
| CallGetType (r : RefId)
| CallAddListener (r : RefId) (l : ListenerId)
| CallRemoveListener (r : RefId) (l : ListenerId)
| CallDeconstruct (r : RefId).

Global Instance Action_eq_dec : EqDecision Action.
Proof. solve_decision. Defined.

(** [addListener(listener, false)] *)
Definition pushListener (r : RefId) (l : ListenerId) (w : World) : World :=
  set_listeners r (fun a => a ++ [l]) w.

Definition run_action (self : ListenerId) (a : Action) (w : World) : World :=
  match a with
  | CallGetType r => log (SawType self r (getType r w)) w
  | CallAddListener r l => pushListener r l w
  | CallRemoveListener r l => removeListener r l w
  | CallDeconstruct r => deconstruct r w
  end.

Definition run_actions (self : ListenerId) (body : list Action) (w : World) : World :=
  foldl (fun w a => run_action self a w) w body.

Section Listeners.
(** The bodies of the two callbacks of every [TypeReferenceListener]. *)
Variable onTypeReferenceResolved : ListenerId -> RefId -> TypirType -> list Action.
Variable onTypeReferenceInvalidated : ListenerId -> RefId -> option TypirType -> list Action.

Definition callResolved (r : RefId) (t : TypirType) (l : ListenerId) (w : World) : World :=
  run_actions l (onTypeReferenceResolved l r t) (log (Resolved l r t) w).

Definition callInvalidated (r : RefId) (previousType : option TypirType)
    (l : ListenerId) (w : World) : World :=
  run_actions l (onTypeReferenceInvalidated l r previousType)
              (log (Invalidated l r previousType) w).

(** [this.listeners.slice().forEach(l => l.onTypeReferenceResolved(this, resolvedType))] *)
Definition notifyResolved (r : RefId) (t : TypirType) (w : World) : World :=
  foldl (fun w l => callResolved r t l w) w (listenersOf r w).

(** [this.listeners.slice().forEach(l => l.onTypeReferenceInvalidated(this, this.resolvedType!))]:
    the slot is read again at every call. *)
Definition notifyInvalidated (r : RefId) (w : World) : World :=
  foldl (fun w l => callInvalidated r (getType r w) l w) w (listenersOf r w).

(** A handle without an object ([None]) stands for no reference at all:
    nothing happens. *)
Definition resolve (r : RefId) (w : World) : World * ResolveResult :=
  match refs w !! r with
  | None => (w, RESOLVING_FAILED)
  | Some this =>
    match resolvedType this with
    | Some _ => (w, ALREADY_RESOLVED)
    | None =>
      match tryToResolve w (selector this) with
      | Some t =>
        (notifyResolved r t (stopResolving r (set_resolvedType r (Some t) w)),
         SUCCESSFULLY_RESOLVED)
      | None => (w, RESOLVING_FAILED)
      end
    end
  end.

Definition startResolving (r : RefId) (w : World) : World :=
  (resolve r (inference_addListener r
               (graph_addListener r (set_resolvedType r None w)))).1.

(** [new TypeReference(selector, services)]: allocates the object and
    starts resolving. *)
Definition construct (s : TypeSelector) (w : World) : RefId * World :=
  let r := fresh (dom (refs w)) in
  (r, startResolving r (set_refs <[r := mkReference s None []]> w)).

Definition addListener (r : RefId) (l : ListenerId) (informAboutCurrentState : bool)
    (w : World) : World :=
  let w' := pushListener r l w in
  if informAboutCurrentState then
    match getType r w' with
    | Some t => callResolved r t l w'
    | None => callInvalidated r None l w'
    end
  else w'.

Definition addedType (r : RefId) (_addedType : TypirType) (_key : string)
    (w : World) : World :=
  (resolve r w).1.

Definition removedType (r : RefId) (removed : TypirType) (_key : string)
    (w : World) : World :=
  if decide (getType r w = Some removed)
  then startResolving r (notifyInvalidated r w)
  else w.

Definition addedEdge (r : RefId) (_edge : TypeEdge) (w : World) : World := w.
Definition removedEdge (r : RefId) (_edge : TypeEdge) (w : World) : World := w.

Definition addedInferenceRule (r : RefId) (w : World) : World := (resolve r w).1.
Definition removedInferenceRule (r : RefId) (w : World) : World := w.

(** *** Events of the collaborators *)

(** Modelled from the spec: the dispatch of the [TypeGraph] is outside the
    two modules. Section 6: "the graph invokes addedType(type, key),
    removedType(type, key), addedEdge(edge), removedEdge(edge) on
    listeners"; section 5: in the subscription order of the references.
    The node map is changed first, then each reference that was
    subscribed when the event happened is called, in that order. *)
Definition graph_addNode (t : TypirType) (key : string) (w : World) : World :=
  foldl (fun w r => addedType r t key w)
        (set_graph_nodes <[key := t]> w) (graph_listeners w).

Definition graph_removeNode (t : TypirType) (key : string) (w : World) : World :=
  foldl (fun w r => removedType r t key w)
        (set_graph_nodes (delete key) w) (graph_listeners w).

Definition graph_addEdge (e : TypeEdge) (w : World) : World :=
  foldl (fun w r => addedEdge r e w) w (graph_listeners w).

Definition graph_removeEdge (e : TypeEdge) (w : World) : World :=
  foldl (fun w r => removedEdge r e w) w (graph_listeners w).

(** Modelled from the spec: the rule registry of the inference collector
    is outside the two modules. Section 6: "the collector invokes
    addedInferenceRule(rule, boundToType?), removedInferenceRule(rule,
    boundToType?) on listeners". How rules are matched is not modelled: a
    change of the rule set is given by the answers [inference'] that the
    collector gives afterwards. *)
Definition inference_addInferenceRule (inference' : Unknown -> InferenceResult)
    (w : World) : World :=
  foldl (fun w r => addedInferenceRule r w)
        (set_inference inference' w) (inference_listeners w).

Definition inference_removeInferenceRule (inference' : Unknown -> InferenceResult)
    (w : World) : World :=
  foldl (fun w r => removedInferenceRule r w)
        (set_inference inference' w) (inference_listeners w).

(** *** What the host does, one call at a time *)
Inductive Op :=
| NewReference (s : TypeSelector)
| Deconstruct (r : RefId)
| AddListener (r : RefId) (l : ListenerId) (informAboutCurrentState : bool)
| RemoveListener (r : RefId) (l : ListenerId)
| AddNode (t : TypirType) (key : string)
| RemoveNode (t : TypirType) (key : string)
| AddEdge (e : TypeEdge)
| RemoveEdge (e : TypeEdge)
| AddInferenceRule (inference' : Unknown -> InferenceResult)
| RemoveInferenceRule (inference' : Unknown -> InferenceResult).

Definition step (w : World) (op : Op) : World :=
  match op with
  | NewReference s => (construct s w).2
  | Deconstruct r => deconstruct r w
  | AddListener r l i => addListener r l i w
  | RemoveListener r l => removeListener r l w
  | AddNode t key => graph_addNode t key w
  | RemoveNode t key => graph_removeNode t key w
  | AddEdge e => graph_addEdge e w
  | RemoveEdge e => graph_removeEdge e w
  | AddInferenceRule i => inference_addInferenceRule i w
  | RemoveInferenceRule i => inference_removeInferenceRule i w
  end.

Definition run (ops : list Op) (w : World) : World := foldl step w ops.
End Listeners.

(** *** [resolveTypeSelector] *)

Section Printer.
Variable printDomainElement : Unknown -> bool -> string.

(** The declared result is [Type]; what a branch returns may still be
    [undefined], so the returned value is an option. *)
Fixpoint resolveTypeSelector (w : World) (s : TypeSelector) : Outcome (option TypirType) :=
  match s with
  | SelType t => Return (Some t)
  | SelString key =>
    match graph_getType key w with
    | Some result => Return (Some result)
    | None => Throw ("A type with identifier '" +:+ key
                       +:+ "' as TypeSelector does not exist in the type graph.")
    end
  | SelInitializer i => Return (Some (getTypeFinal i))
  | SelReference r => Return (getType r w)
  | SelFunction f => resolveTypeSelector w (f tt)
  | SelDomain d =>
    match inferType (DomainElement d) w with
    | Inferred result => Return (Some result)
    | NotInferred _ =>
      Throw ("For '" +:+ printDomainElement (DomainElement d) false
               +:+ "' as TypeSelector, no type can be inferred.")
    end
  end.
End Printer.

(** ** The Lox example: [mapType] *)

Inductive LoxPrimitive := lox_number | lox_string | lox_boolean | lox_void.

(** A [TypeReference] node of the Lox syntax tree as far as [mapType] reads
    it: its [primitive], and the name of the class [reference.ref] when
    [reference] is set and linked. *)
Record LoxTypeReference := mkLoxTypeReference {
  primitive : option LoxPrimitive;
  reference_ref_name : option string
}.

Section Lox.
(** The four primitive types that [createTypir] made, and the two lookups of
    the class kind and the function kind (the kinds are outside the file). *)
Variables typeNumber typeString typeBool typeVoid : TypirType.
Variable getClassType : string -> option TypirType.
(** [functionKind.getFunctionType({ functionName: 'TODO', ... })] *)
Variable todoFunctionType : option TypirType.

Definition mapType (typeRef : option LoxTypeReference) : Outcome TypirType :=
  match typeRef with
  | None => Throw "a type reference must be given"
  | Some typeRef =>
    match primitive typeRef with
    | Some lox_number => Return typeNumber
    | Some lox_string => Return typeString
    | Some lox_boolean => Return typeBool
    | Some lox_void => Return typeVoid
    | None =>
      match reference_ref_name typeRef with
      | Some name =>
        match getClassType name with
        | Some classType => Return classType
        | None => Throw EmptyString
        end
      | None =>
        match todoFunctionType with
        | Some functionType => Return functionType
        | None => Throw EmptyString
        end
      end
    end
  end.
End Lox.

(** ** Vocabulary of the statements *)

(** The calls that reference [r] itself made on its listeners. *)
Definition notif_of (r : RefId) (e : Event) : bool :=
  match e with
  | Resolved _ r' _ | Invalidated _ r' _ => bool_decide (r' = r)
  | SawType _ _ _ => false
  end.

Definition notifs (r : RefId) (es : list Event) : list Event :=
  filter (fun e => notif_of r e) es.

Definition allocated (r : RefId) (w : World) : Prop := is_Some (refs w !! r).

Definition selectorOf (r : RefId) (w : World) : option TypeSelector :=
  selector <$> refs w !! r.

(** Subscribed to both collaborators, and to neither. *)
Definition subscribed (r : RefId) (w : World) : Prop :=
  r ∈ graph_listeners w ∧ r ∈ inference_listeners w.

Definition unsubscribed (r : RefId) (w : World) : Prop :=
  (r ∉ graph_listeners w) ∧ (r ∉ inference_listeners w).

(** [x] occurs at most once in [a]: one [splice_first] removes it. *)
Definition at_most_once {A} `{EqDecision A} (x : A) (a : list A) : Prop :=
  x ∉ splice_first x a.

(** The part of the invariant that every reference keeps for ever: it is
    in each listener array at most once, and whoever is in one of them is an
    allocated reference with an empty slot. *)
Definition tidy (r : RefId) (w : World) : Prop :=
  at_most_once r (graph_listeners w) ∧
  at_most_once r (inference_listeners w) ∧
  (r ∈ graph_listeners w ∨ r ∈ inference_listeners w ->
   allocated r w ∧ getType r w = None).

(** The part that a reference keeps until it is deconstructed. *)
Definition searching (r : RefId) (w : World) : Prop :=
  allocated r w ∧ (getType r w = None -> subscribed r w).

(** A reference that no event reaches: slot [v], own notifications [ns]. *)
Definition detached (r : RefId) (v : option TypirType) (ns : list Event)
    (w : World) : Prop :=
  allocated r w ∧ unsubscribed r w ∧ getType r w = v ∧ notifs r (trace w) = ns.

(** A reference whose selector is the identifier [key], waiting for it. *)
Definition waiting (r : RefId) (key : string) (w : World) : Prop :=
  selectorOf r w = Some (SelString key) ∧
  graph_nodes w !! key = None ∧ getType r w = None.

(** No callback body deconstructs [r]. *)
Definition never_deconstructs (r : RefId)
    (onResolved : ListenerId -> RefId -> TypirType -> list Action)
    (onInvalidated : ListenerId -> RefId -> option TypirType -> list Action) : Prop :=
  (forall l r' t, CallDeconstruct r ∉ onResolved l r' t) ∧
  (forall l r' p, CallDeconstruct r ∉ onInvalidated l r' p).

(** What a predicate on worlds must tolerate to survive everything that
    happens to references other than [r], and every callback body that
    does not deconstruct [r]. *)
Record Frame (r : RefId) (P : World -> Prop) : Prop := mkFrame {
  frame_saw : forall l r' w, P w -> P (log (SawType l r' (getType r' w)) w);
  frame_resolved : forall l r' t w, r' ≠ r -> P w -> P (log (Resolved l r' t) w);
  frame_invalidated : forall l r' p w, r' ≠ r -> P w -> P (log (Invalidated l r' p) w);
  frame_listeners : forall r' f w, P w -> P (set_listeners r' f w);
  frame_stop : forall r' w, r' ≠ r -> P w -> P (stopResolving r' w);
  frame_start : forall r' w, r' ≠ r -> P w ->
                P (inference_addListener r' (graph_addListener r' w));
  frame_slot : forall r' v w, r' ≠ r -> P w -> P (set_resolvedType r' v w)
}.

(** The callback bodies of a table are harmless for [P]: [P] survives the
    deconstruction of [r], or no body deconstructs [r]. *)
Definition harmless (r : RefId) (P : World -> Prop)
    (onResolved : ListenerId -> RefId -> TypirType -> list Action)
    (onInvalidated : ListenerId -> RefId -> option TypirType -> list Action) : Prop :=
  (forall w, P w -> P (stopResolving r w)) ∨ never_deconstructs r onResolved onInvalidated.

(** During an invalidation pass of [r] with previous type [t]: what an
    event of the pass may be. A callback that reads [r] sees [t]; a call of
    [onTypeReferenceInvalidated] by [r] passes [t]; [r] makes no call of
    [onTypeReferenceResolved]. *)
Definition sees_previous (r : RefId) (t : TypirType) (e : Event) : Prop :=
  match e with
  | SawType _ r' seen => r' = r -> seen = Some t
  | Invalidated _ r' previousType => r' = r -> previousType = Some t
  | Resolved _ r' _ => r' ≠ r
  end.

(** The selector that a chain of function selectors ends in. *)
Fixpoint head_selector (s : TypeSelector) : TypeSelector :=
  match s with
  | SelFunction f => head_selector (f tt)
  | _ => s
  end.

(** ** Example data *)

Definition typeA : TypirType := mkType 1 "A".
Definition typeA2 : TypirType := mkType 2 "A".
Definition typeB : TypirType := mkType 3 "B".

(** Listeners that do nothing in their callbacks. *)
Definition silent_resolved : ListenerId -> RefId -> TypirType -> list Action :=
  fun _ _ _ => [].
Definition silent_invalidated : ListenerId -> RefId -> option TypirType -> list Action :=
  fun _ _ _ => [].

(** Listeners that read the notifying reference; listener 7 also registers
    listener 9 and removes listener 8 while it is being notified. *)
Definition busy_resolved : ListenerId -> RefId -> TypirType -> list Action :=
  fun l r _ =>
    if decide (l = 7)
    then [CallGetType r; CallAddListener r 9; CallRemoveListener r 8]
    else [CallGetType r].
Definition busy_invalidated : ListenerId -> RefId -> option TypirType -> list Action :=
  fun l r _ =>
    if decide (l = 7)
    then [CallGetType r; CallAddListener r 9; CallRemoveListener r 8]
    else [CallGetType r].

Definition example_printer : Unknown -> bool -> string := fun _ _ => "node".

Definition example_inferType : Unknown -> InferenceResult :=
  fun v => match v with
           | DomainElement 1 => Inferred typeA
           | DomainElement 2 => Inferred typeB
           | _ => NotInferred []
           end.

(** A strategy that accepts two types with the same identifier. *)
Definition example_strategy : TypeCheckStrategy -> TypirType -> TypirType -> option TypirProblem :=
  fun strategy actual expected =>
    if decide (identifier actual = identifier expected) then None
    else Some (mkProblem "TypeEqualityProblem" strategy).

Definition example_message : ValidationMessageProvider :=
  fun _ _ => mkDetails None None None None None.

(** Closes [x ∉ [a; b; ...]] when [x] differs from every entry by its
    constructor. *)
Ltac not_in_list :=
  let H := fresh "H" in
  intros H;
  repeat (apply elem_of_cons in H as [H|H]; [discriminate H|]);
  by apply elem_of_nil in H.

(** ** Validation constraints *)

Section ConstraintFacts.
Variable inferType : Unknown -> InferenceResult.
Variable createTypeCheckStrategy :
  TypeCheckStrategy -> TypirType -> TypirType -> option TypirProblem.
Variable printType : TypirType -> string.

Local Abbreviation related :=
  (ensureNodeRelatedWithType inferType createTypeCheckStrategy printType).

Lemma related_resolved domainNode expected strategy negated message actualType expectedType :
  domainNode ≠ Undefined -> expected ≠ Undefined ->
  typeOf inferType domainNode = Some actualType ->
  typeOf inferType expected = Some expectedType ->
  related domainNode expected strategy negated message =
  match createTypeCheckStrategy strategy actualType expectedType, negated with
  | Some comparisonResult, false =>
    [problemFrom (message (annotateType printType actualType)
                          (annotateType printType expectedType))
                 domainNode actualType expectedType strategy false [comparisonResult]]
  | None, true =>
    [problemFrom (message (annotateType printType actualType)
                          (annotateType printType expectedType))
                 domainNode actualType expectedType strategy true []]
  | _, _ => []
  end.
Proof.
  intros Hd He Ha Hx. unfold ensureNodeRelatedWithType.
  destruct domainNode; [done| |]; (destruct expected; [done| |]);
    rewrite Ha, Hx; destruct (createTypeCheckStrategy _ _ _), negated; reflexivity.
Qed.

(** C5: when both sides resolve to types, the outcome is fixed by the
    answer of the strategy and the negation flag: a mismatch, not negated,
    gives one problem that carries the mismatch as its only sub-problem; no
    mismatch, negated, gives one problem with an empty sub-problem list;
    the two other combinations give the empty list. So
    [ensureNodeIsAssignable] on a mismatching pair gives one problem with a
    non-empty sub-problem list, and [ensureNodeHasNotType] on a value that
    infers to the forbidden type (which the equality strategy accepts as
    equal to itself) gives one problem with no sub-problems. *)
Theorem relation_check_outcomes domainNode expected strategy negated message
    actualType expectedType :
  domainNode ≠ Undefined -> expected ≠ Undefined ->
  typeOf inferType domainNode = Some actualType ->
  typeOf inferType expected = Some expectedType ->
  match createTypeCheckStrategy strategy actualType expectedType, negated with
  | Some mismatch, false =>
    exists p, related domainNode expected strategy negated message = [p]
              ∧ subProblems p = Some [mismatch]
  | None, false => related domainNode expected strategy negated message = []
  | None, true =>
    exists p, related domainNode expected strategy negated message = [p]
              ∧ subProblems p = Some []
  | Some _, true => related domainNode expected strategy negated message = []
  end
  ∧ (forall mismatch,
       createTypeCheckStrategy "ASSIGNABLE_TYPE" actualType expectedType = Some mismatch ->
       exists p subs,
         ensureNodeIsAssignable inferType createTypeCheckStrategy printType
           domainNode expected message = [p]
         ∧ subProblems p = Some subs ∧ subs ≠ [])
  ∧ (actualType = expectedType ->
     createTypeCheckStrategy "EQUAL_TYPE" expectedType expectedType = None ->
     exists p,
       ensureNodeHasNotType inferType createTypeCheckStrategy printType
         domainNode expected message = [p]
       ∧ subProblems p = Some []).
Proof.
  intros Hd He Ha Hx. split; [|split].
  - rewrite (related_resolved _ _ _ _ _ _ _ Hd He Ha Hx).
    destruct (createTypeCheckStrategy _ _ _), negated; eauto.
  - intros mismatch Hm. unfold ensureNodeIsAssignable.
    rewrite (related_resolved _ _ _ _ _ _ _ Hd He Ha Hx), Hm.
    eexists _, _. split; [reflexivity|]. split; [reflexivity|]. discriminate.
  - intros -> Hm. unfold ensureNodeHasNotType.
    rewrite (related_resolved _ _ _ _ _ _ _ Hd He Ha Hx), Hm. eauto.
Qed.

(** C6: whatever the strategy and the negation flag, a relation check
    with an undefined side, or with a side that does not resolve to a type,
    returns the empty list; so do the three wrappers. *)
Theorem relation_check_skips domainNode expected strategy negated message :
  domainNode = Undefined ∨ expected = Undefined ∨
  typeOf inferType domainNode = None ∨ typeOf inferType expected = None ->
  related domainNode expected strategy negated message = []
  ∧ ensureNodeIsAssignable inferType createTypeCheckStrategy printType
      domainNode expected message = []
  ∧ ensureNodeIsEquals inferType createTypeCheckStrategy printType
      domainNode expected message = []
  ∧ ensureNodeHasNotType inferType createTypeCheckStrategy printType
      domainNode expected message = [].
Proof.
  intros H.
  assert (Hall : forall s n, related domainNode expected s n message = []).
  { intros s n. unfold ensureNodeRelatedWithType.
    destruct H as [-> | [-> | [H | H]]].
    - reflexivity.
    - by destruct domainNode.
    - destruct domainNode; [done| |]; (destruct expected; [done| |]);
        by rewrite H.
    - destruct domainNode; [done| |]; (destruct expected; [done| |]);
        rewrite H; simpl; try done; destruct (inferType _); done.
  }
  unfold ensureNodeIsAssignable, ensureNodeIsEquals, ensureNodeHasNotType.
  by rewrite !Hall.
Qed.
End ConstraintFacts.

(** ** Validation collector *)

Lemma validate_from (rules : list ValidationRule) (v : Unknown)
    (problems : list ValidationProblem) :
  foldl (fun problems rule => problems ++ rule v) problems rules
  = problems ++ concat (map (fun rule => rule v) rules).
Proof.
  revert problems. induction rules as [|rule rules IH]; intros problems; simpl.
  - by rewrite app_nil_r.
  - by rewrite IH, app_assoc.
Qed.

Lemma registered_rules (calls : list (list ValidationRule)) (start : list ValidationRule) :
  foldl (fun registered rules => addValidationRules rules registered) start calls
  = start ++ concat calls.
Proof.
  revert start. induction calls as [|c calls IH]; intros start; simpl.
  - by rewrite app_nil_r.
  - rewrite IH. unfold addValidationRules. by rewrite app_assoc.
Qed.

(** C7: [validate] returns the concatenation, in the order of the rule
    array, of what each rule returns for the value itself; the rule array is
    the concatenation of the registered rules in registration order; with no
    rule the result is empty. A rule is applied to the value only: no result
    of an earlier rule is passed to it. *)
Theorem validate_concatenates (calls : list (list ValidationRule))
    (rules : list ValidationRule) (v : Unknown) :
  validate rules v = concat (map (fun rule => rule v) rules)
  ∧ validate (foldl (fun registered rs => addValidationRules rs registered) [] calls) v
    = concat (map (fun rule => rule v) (concat calls))
  ∧ validate [] v = [].
Proof.
  unfold validate. split; [|split].
  - apply validate_from.
  - by rewrite validate_from, registered_rules.
  - reflexivity.
Qed.

(** ** Arrays with [indexOf]/[splice] *)

Section SpliceFirst.
Context {A : Type} `{EqDecision A}.
Implicit Types (x y : A) (a : list A).

Lemma elem_of_splice_first x y a : x ∈ splice_first y a -> x ∈ a.
Proof.
  induction a as [|z a IH]; simpl; [done|].
  case_decide; rewrite ?elem_of_cons; [by right|]. intros [->|Hin]; auto.
Qed.

Lemma elem_of_splice_first_ne x y a : x ≠ y -> x ∈ a -> x ∈ splice_first y a.
Proof.
  intros Hne. induction a as [|z a IH]; simpl; [done|].
  case_decide; subst; rewrite ?elem_of_cons; intros [->|Hin]; auto; done.
Qed.

Lemma splice_first_notin x a : x ∉ a -> splice_first x a = a.
Proof.
  induction a as [|z a IH]; simpl; [done|].
  rewrite not_elem_of_cons. intros [Hne Hnot].
  case_decide; [done|]. by rewrite IH.
Qed.

Lemma splice_first_comm x y a :
  splice_first x (splice_first y a) = splice_first y (splice_first x a).
Proof.
  induction a as [|z a IH]; simpl; [done|].
  repeat (case_decide; simpl); subst; try done. by rewrite IH.
Qed.

Lemma splice_first_snoc_ne x y a :
  x ≠ y -> splice_first x (a ++ [y]) = splice_first x a ++ [y].
Proof.
  intros Hne. induction a as [|z a IH]; simpl.
  - by case_decide.
  - case_decide; [done|]. by rewrite IH.
Qed.

Lemma splice_first_snoc x a : x ∉ a -> splice_first x (a ++ [x]) = a.
Proof.
  induction a as [|z a IH]; simpl.
  - by case_decide.
  - rewrite not_elem_of_cons. intros [Hne Hnot].
    case_decide; [done|]. by rewrite IH.
Qed.

Lemma at_most_once_splice x y a :
  at_most_once x a -> at_most_once x (splice_first y a).
Proof.
  unfold at_most_once. intros Hx Hin. apply Hx.
  rewrite splice_first_comm in Hin. by apply elem_of_splice_first in Hin.
Qed.

Lemma at_most_once_snoc_ne x y a :
  x ≠ y -> at_most_once x a -> at_most_once x (a ++ [y]).
Proof.
  unfold at_most_once. intros Hne Hx. rewrite splice_first_snoc_ne by done.
  rewrite not_elem_of_app, list_elem_of_singleton. done.
Qed.

Lemma at_most_once_snoc x a : x ∉ a -> at_most_once x (a ++ [x]).
Proof. unfold at_most_once. intros Hx. by rewrite splice_first_snoc. Qed.

Lemma at_most_once_split x a :
  at_most_once x a -> x ∈ a ->
  exists pre post, a = pre ++ x :: post ∧ (x ∉ pre) ∧ (x ∉ post).
Proof.
  unfold at_most_once. induction a as [|z a IH]; simpl; [by rewrite elem_of_nil|].
  case_decide as Hz.
  - subst z. intros Hx _. exists [], a. split; [done|]. split; [|done].
    apply not_elem_of_nil.
  - rewrite not_elem_of_cons, elem_of_cons. intros [_ Hx] [?|Hin]; [done|].
    destruct (IH Hx Hin) as (pre & post & -> & Hpre & Hpost).
    exists (z :: pre), post. split; [done|]. split; [|done].
    rewrite not_elem_of_cons. done.
Qed.
End SpliceFirst.

(** ** What a change of the world leaves alone *)

Lemma getType_set_listeners r r' f w : getType r (set_listeners r' f w) = getType r w.
Proof.
  unfold getType, set_listeners; simpl. rewrite lookup_alter.
  case_decide; [subst|done]. by destruct (refs w !! r).
Qed.

Lemma getType_set_resolvedType_ne r r' v w :
  r' ≠ r -> getType r (set_resolvedType r' v w) = getType r w.
Proof. intros Hne. unfold getType, set_resolvedType; simpl. by rewrite lookup_alter_ne. Qed.

Lemma getType_set_resolvedType r v w :
  allocated r w -> getType r (set_resolvedType r v w) = v.
Proof.
  intros [o Ho]. unfold getType, set_resolvedType; simpl.
  by rewrite lookup_alter_eq, Ho.
Qed.

Lemma allocated_set_listeners r r' f w : allocated r (set_listeners r' f w) <-> allocated r w.
Proof.
  unfold allocated, set_listeners; simpl. rewrite lookup_alter.
  case_decide; [subst|done]. by rewrite fmap_is_Some.
Qed.

Lemma allocated_set_resolvedType r r' v w :
  allocated r (set_resolvedType r' v w) <-> allocated r w.
Proof.
  unfold allocated, set_resolvedType; simpl. rewrite lookup_alter.
  case_decide; [subst|done]. by rewrite fmap_is_Some.
Qed.

Lemma selectorOf_set_listeners r r' f w :
  selectorOf r (set_listeners r' f w) = selectorOf r w.
Proof.
  unfold selectorOf, set_listeners; simpl. rewrite lookup_alter.
  case_decide; [subst|done]. by destruct (refs w !! r).
Qed.

Lemma selectorOf_set_resolvedType r r' v w :
  selectorOf r (set_resolvedType r' v w) = selectorOf r w.
Proof.
  unfold selectorOf, set_resolvedType; simpl. rewrite lookup_alter.
  case_decide; [subst|done]. by destruct (refs w !! r).
Qed.

Lemma listenersOf_set_resolvedType r r' v w :
  listenersOf r (set_resolvedType r' v w) = listenersOf r w.
Proof.
  unfold listenersOf, set_resolvedType; simpl. rewrite lookup_alter.
  case_decide; [subst|done]. by destruct (refs w !! r).
Qed.

Lemma notifs_app r es es' : notifs r (es ++ es') = notifs r es ++ notifs r es'.
Proof. apply filter_app. Qed.

Lemma notifs_saw r l r' v : notifs r [SawType l r' v] = [].
Proof. reflexivity. Qed.

Lemma notifs_resolved_own r l t : notifs r [Resolved l r t] = [Resolved l r t].
Proof.
  unfold notifs. rewrite filter_cons_True; [done|]. by apply bool_decide_pack.
Qed.

Lemma notifs_invalidated_own r l p : notifs r [Invalidated l r p] = [Invalidated l r p].
Proof.
  unfold notifs. rewrite filter_cons_True; [done|]. by apply bool_decide_pack.
Qed.

Lemma notifs_resolved_ne r r' l t : r' ≠ r -> notifs r [Resolved l r' t] = [].
Proof.
  intros Hne. unfold notifs. rewrite filter_cons_False; [done|].
  by intros Heq%bool_decide_unpack.
Qed.

Lemma notifs_invalidated_ne r r' l p : r' ≠ r -> notifs r [Invalidated l r' p] = [].
Proof.
  intros Hne. unfold notifs. rewrite filter_cons_False; [done|].
  by intros Heq%bool_decide_unpack.
Qed.

Lemma foldl_preserves {S X} (P : S -> Prop) (f : S -> X -> S) (xs : list X) (s : S) :
  (forall x s, x ∈ xs -> P s -> P (f s x)) -> P s -> P (foldl f s xs).
Proof.
  revert s. induction xs as [|x xs IH]; intros s Hf Hs; simpl; [done|].
  apply IH.
  - intros y s' Hy. apply Hf. by right.
  - apply Hf; [by left|done].
Qed.

(** ** Framing: what happens to other references *)

Section Framing.
Variable onResolved : ListenerId -> RefId -> TypirType -> list Action.
Variable onInvalidated : ListenerId -> RefId -> option TypirType -> list Action.
Variable r : RefId.
Variable P : World -> Prop.
Hypothesis HP : Frame r P.
Hypothesis Hharmless : harmless r P onResolved onInvalidated.

Lemma frame_run_action self a w :
  (forall w, P w -> P (stopResolving r w)) ∨ a ≠ CallDeconstruct r ->
  P w -> P (run_action self a w).
Proof.
  intros Hok Hw. destruct a as [r0|r0 l0|r0 l0|r0]; simpl.
  - by apply (frame_saw r P HP).
  - by apply (frame_listeners r P HP).
  - by apply (frame_listeners r P HP).
  - unfold deconstruct. apply (frame_listeners r P HP).
    destruct (decide (r0 = r)) as [->|Hne].
    + destruct Hok as [Hok|Hok]; [by apply Hok|done].
    + by apply (frame_stop r P HP).
Qed.

Lemma frame_run_actions self body w :
  (forall w, P w -> P (stopResolving r w)) ∨ CallDeconstruct r ∉ body ->
  P w -> P (run_actions self body w).
Proof.
  intros Hok. unfold run_actions. apply foldl_preserves.
  intros a w' Ha. apply frame_run_action.
  destruct Hok as [Hok|Hok]; [by left|right]. by intros ->.
Qed.

Lemma frame_body_resolved self r' t w :
  P w -> P (run_actions self (onResolved self r' t) w).
Proof.
  apply frame_run_actions. destruct Hharmless as [H|[H _]]; [by left|by right].
Qed.

Lemma frame_body_invalidated self r' p w :
  P w -> P (run_actions self (onInvalidated self r' p) w).
Proof.
  apply frame_run_actions. destruct Hharmless as [H|[_ H]]; [by left|by right].
Qed.

Lemma frame_callResolved r' t l w :
  r' ≠ r -> P w -> P (callResolved onResolved r' t l w).
Proof.
  intros Hne Hw. apply frame_body_resolved. by apply (frame_resolved r P HP).
Qed.

Lemma frame_callInvalidated r' p l w :
  r' ≠ r -> P w -> P (callInvalidated onInvalidated r' p l w).
Proof.
  intros Hne Hw. apply frame_body_invalidated. by apply (frame_invalidated r P HP).
Qed.

Lemma frame_notifyResolved r' t w :
  r' ≠ r -> P w -> P (notifyResolved onResolved r' t w).
Proof.
  intros Hne. unfold notifyResolved. apply foldl_preserves.
  intros l w' _. by apply frame_callResolved.
Qed.

Lemma frame_notifyInvalidated r' w :
  r' ≠ r -> P w -> P (notifyInvalidated onInvalidated r' w).
Proof.
  intros Hne. unfold notifyInvalidated. apply foldl_preserves.
  intros l w' _. by apply frame_callInvalidated.
Qed.

Lemma frame_resolve r' w :
  r' ≠ r -> P w -> P (resolve onResolved r' w).1.
Proof.
  intros Hne Hw. unfold resolve.
  destruct (refs w !! r') as [this|]; [|done].
  destruct (resolvedType this); [done|].
  destruct (tryToResolve w (selector this)) as [t|]; [|done]. simpl.
  apply frame_notifyResolved; [done|].
  apply (frame_stop r P HP); [done|]. by apply (frame_slot r P HP).
Qed.

Lemma frame_startResolving r' w :
  r' ≠ r -> P w -> P (startResolving onResolved r' w).
Proof.
  intros Hne Hw. unfold startResolving. apply frame_resolve; [done|].
  apply (frame_start r P HP); [done|]. by apply (frame_slot r P HP).
Qed.

Lemma frame_addedType r' t key w :
  r' ≠ r -> P w -> P (addedType onResolved r' t key w).
Proof. apply frame_resolve. Qed.

Lemma frame_addedInferenceRule r' w :
  r' ≠ r -> P w -> P (addedInferenceRule onResolved r' w).
Proof. apply frame_resolve. Qed.

Lemma frame_removedType r' t key w :
  r' ≠ r -> P w -> P (removedType onResolved onInvalidated r' t key w).
Proof.
  intros Hne Hw. unfold removedType. case_decide; [|done].
  apply frame_startResolving; [done|]. by apply frame_notifyInvalidated.
Qed.

Lemma frame_deconstruct r' w : r' ≠ r -> P w -> P (deconstruct r' w).
Proof.
  intros Hne Hw. unfold deconstruct.
  apply (frame_listeners r P HP). by apply (frame_stop r P HP).
Qed.

Lemma frame_addListener r' l i w :
  r' ≠ r -> P w -> P (addListener onResolved onInvalidated r' l i w).
Proof.
  intros Hne Hw. unfold addListener, pushListener.
  pose proof (frame_listeners r P HP r' (fun a => a ++ [l]) w Hw) as Hw'.
  destruct i; [|done].
  destruct (getType r' _);
    [by apply frame_callResolved | by apply frame_callInvalidated].
Qed.

Lemma frame_removeListener r' l w : P w -> P (removeListener r' l w).
Proof. apply (frame_listeners r P HP). Qed.

(** A dispatch that does not reach [r]. *)
Lemma frame_dispatch (handler : RefId -> World -> World) (snapshot : list RefId) w :
  (forall r' w, r' ≠ r -> P w -> P (handler r' w)) ->
  r ∉ snapshot -> P w -> P (foldl (fun w r' => handler r' w) w snapshot).
Proof.
  intros Hh Hnot. apply foldl_preserves.
  intros r' w' Hin. apply Hh. by intros ->.
Qed.
End Framing.

(** ** The predicates that are framed *)

Lemma Frame_and r (P Q : World -> Prop) :
  Frame r P -> Frame r Q -> Frame r (fun w => P w ∧ Q w).
Proof.
  intros HP HQ. split.
  - intros l r' w [??]. split; [by apply (frame_saw r P HP)|by apply (frame_saw r Q HQ)].
  - intros l r' t w ? [??].
    split; [by apply (frame_resolved r P HP)|by apply (frame_resolved r Q HQ)].
  - intros l r' p w ? [??].
    split; [by apply (frame_invalidated r P HP)|by apply (frame_invalidated r Q HQ)].
  - intros r' f w [??].
    split; [by apply (frame_listeners r P HP)|by apply (frame_listeners r Q HQ)].
  - intros r' w ? [??]. split; [by apply (frame_stop r P HP)|by apply (frame_stop r Q HQ)].
  - intros r' w ? [??]. split; [by apply (frame_start r P HP)|by apply (frame_start r Q HQ)].
  - intros r' v w ? [??]. split; [by apply (frame_slot r P HP)|by apply (frame_slot r Q HQ)].
Qed.

Lemma Frame_allocated r : Frame r (allocated r).
Proof.
  split; try done.
  - intros r' f w. by rewrite allocated_set_listeners.
  - intros r' v w _. by rewrite allocated_set_resolvedType.
Qed.

Lemma Frame_getType r v : Frame r (fun w => getType r w = v).
Proof.
  split; try done.
  - intros r' f w. by rewrite getType_set_listeners.
  - intros r' v' w Hne. by rewrite getType_set_resolvedType_ne.
Qed.

Lemma Frame_selectorOf r s : Frame r (fun w => selectorOf r w = s).
Proof.
  split; try done.
  - intros r' f w. by rewrite selectorOf_set_listeners.
  - intros r' v' w Hne. by rewrite selectorOf_set_resolvedType.
Qed.

Lemma Frame_graph_nodes r key x : Frame r (fun w => graph_nodes w !! key = x).
Proof. by split. Qed.

Lemma Frame_unsubscribed r : Frame r (unsubscribed r).
Proof.
  split; try done.
  - intros r' w Hne [Hg Hi]. split; simpl.
    + intros Hin. by apply Hg, (elem_of_splice_first _ r').
    + intros Hin. by apply Hi, (elem_of_splice_first _ r').
  - intros r' w Hne [Hg Hi]. split; simpl.
    + rewrite not_elem_of_app, list_elem_of_singleton. done.
    + rewrite not_elem_of_app, list_elem_of_singleton. done.
Qed.

Lemma Frame_notifs r ns : Frame r (fun w => notifs r (trace w) = ns).
Proof.
  split; try done.
  - intros l r' w <-. simpl. by rewrite notifs_app, notifs_saw, app_nil_r.
  - intros l r' t w Hne <-. simpl.
    by rewrite notifs_app, notifs_resolved_ne, app_nil_r.
  - intros l r' p w Hne <-. simpl.
    by rewrite notifs_app, notifs_invalidated_ne, app_nil_r.
Qed.

Lemma Frame_tidy r : Frame r (tidy r).
Proof.
  split; try done.
  - intros r' f w (Hg & Hi & Hin). split; [done|]. split; [done|].
    rewrite allocated_set_listeners, getType_set_listeners. done.
  - intros r' w Hne (Hg & Hi & Hin). split; [|split]; simpl.
    + by apply at_most_once_splice.
    + by apply at_most_once_splice.
    + intros [H|H]; apply elem_of_splice_first in H; apply Hin; auto.
  - intros r' w Hne (Hg & Hi & Hin). split; [|split]; simpl.
    + apply at_most_once_snoc_ne; [by intros ->|done].
    + apply at_most_once_snoc_ne; [by intros ->|done].
    + rewrite !elem_of_app, !list_elem_of_singleton.
      intros [[H|H]|[H|H]]; try (by subst); apply Hin; auto.
  - intros r' v w Hne (Hg & Hi & Hin). split; [done|]. split; [done|].
    rewrite allocated_set_resolvedType, getType_set_resolvedType_ne by done. done.
Qed.

Lemma Frame_searching r : Frame r (searching r).
Proof.
  split; try done.
  - intros r' f w [Ha Hs]. split; [by rewrite allocated_set_listeners|].
    rewrite getType_set_listeners. done.
  - intros r' w Hne [Ha Hs]. split; [done|].
    intros Hn. destruct (Hs Hn) as [Hg Hi].
    split; simpl; apply elem_of_splice_first_ne; done.
  - intros r' w Hne [Ha Hs]. split; [done|].
    intros Hn. destruct (Hs Hn) as [Hg Hi].
    split; simpl; rewrite elem_of_app; by left.
  - intros r' v w Hne [Ha Hs]. split; [by rewrite allocated_set_resolvedType|].
    rewrite getType_set_resolvedType_ne by done. done.
Qed.

Lemma Frame_detached r v ns : Frame r (detached r v ns).
Proof.
  unfold detached.
  apply (Frame_and r (allocated r)); [apply Frame_allocated|].
  apply (Frame_and r (unsubscribed r)); [apply Frame_unsubscribed|].
  apply (Frame_and r (fun w => getType r w = v)); [apply Frame_getType|].
  apply Frame_notifs.
Qed.

Lemma Frame_waiting r key : Frame r (waiting r key).
Proof.
  unfold waiting.
  apply (Frame_and r (fun w => selectorOf r w = Some (SelString key)));
    [apply Frame_selectorOf|].
  apply (Frame_and r (fun w => graph_nodes w !! key = None));
    [apply Frame_graph_nodes|].
  apply Frame_getType.
Qed.

(** Deconstructing [r] itself keeps these. *)
Lemma tidy_stopResolving r w : tidy r w -> tidy r (stopResolving r w).
Proof.
  intros (Hg & Hi & Hin). split; [|split]; simpl.
  - by apply at_most_once_splice.
  - by apply at_most_once_splice.
  - intros [H|H]; apply elem_of_splice_first in H; apply Hin; auto.
Qed.

Lemma detached_stopResolving r v ns w :
  detached r v ns w -> detached r v ns (stopResolving r w).
Proof.
  intros (Ha & [Hg Hi] & Hv & Hn). split; [done|]. split; [|done].
  split; simpl; intros Hin; by apply elem_of_splice_first in Hin.
Qed.

Lemma unsubscribed_stopResolving r w :
  tidy r w -> unsubscribed r (stopResolving r w).
Proof. intros (Hg & Hi & _). by split. Qed.

(** ** Predicates that do not read the log survive every notification *)

Section Blind.
Variable onResolved : ListenerId -> RefId -> TypirType -> list Action.
Variable onInvalidated : ListenerId -> RefId -> option TypirType -> list Action.
Variable r : RefId.
Variable P : World -> Prop.
Hypothesis HP : Frame r P.
Hypothesis Hharmless : harmless r P onResolved onInvalidated.
Hypothesis Hblind : forall e w, P w -> P (log e w).

Lemma blind_callResolved r' t l w : P w -> P (callResolved onResolved r' t l w).
Proof.
  intros Hw. apply (frame_body_resolved onResolved onInvalidated r P HP Hharmless).
  by apply Hblind.
Qed.

Lemma blind_callInvalidated r' p l w :
  P w -> P (callInvalidated onInvalidated r' p l w).
Proof.
  intros Hw. apply (frame_body_invalidated onResolved onInvalidated r P HP Hharmless).
  by apply Hblind.
Qed.

Lemma blind_notifyResolved r' t w : P w -> P (notifyResolved onResolved r' t w).
Proof.
  unfold notifyResolved. apply foldl_preserves.
  intros l w' _. apply blind_callResolved.
Qed.

Lemma blind_notifyInvalidated r' w : P w -> P (notifyInvalidated onInvalidated r' w).
Proof.
  unfold notifyInvalidated. apply foldl_preserves.
  intros l w' _. apply blind_callInvalidated.
Qed.

Lemma blind_addListener r' l i w :
  P w -> P (addListener onResolved onInvalidated r' l i w).
Proof.
  intros Hw. unfold addListener, pushListener.
  pose proof (frame_listeners r P HP r' (fun a => a ++ [l]) w Hw) as Hw'.
  destruct i; [|done].
  destruct (getType r' _); [by apply blind_callResolved|by apply blind_callInvalidated].
Qed.

(** With handlers of [r] itself that keep [P], every dispatch keeps it. *)
Hypothesis Hresolve : forall w, P w -> P (resolve onResolved r w).1.
Hypothesis Hremoved : forall t key w,
  P w -> P (removedType onResolved onInvalidated r t key w).

Lemma any_resolve r' w : P w -> P (resolve onResolved r' w).1.
Proof.
  destruct (decide (r' = r)) as [->|Hne]; [apply Hresolve|].
  by apply (frame_resolve onResolved onInvalidated r P HP Hharmless).
Qed.

Lemma any_removedType r' t key w :
  P w -> P (removedType onResolved onInvalidated r' t key w).
Proof.
  destruct (decide (r' = r)) as [->|Hne]; [apply Hremoved|].
  by apply (frame_removedType onResolved onInvalidated r P HP Hharmless).
Qed.

Lemma any_dispatch_added t key snapshot w :
  P w -> P (foldl (fun w r' => addedType onResolved r' t key w) w snapshot).
Proof.
  apply foldl_preserves. intros r' w' _. apply any_resolve.
Qed.

Lemma any_dispatch_removed t key snapshot w :
  P w -> P (foldl (fun w r' => removedType onResolved onInvalidated r' t key w)
                  w snapshot).
Proof.
  apply foldl_preserves. intros r' w' _. apply any_removedType.
Qed.

Lemma any_dispatch_rule snapshot w :
  P w -> P (foldl (fun w r' => addedInferenceRule onResolved r' w) w snapshot).
Proof.
  apply foldl_preserves. intros r' w' _. apply any_resolve.
Qed.
End Blind.

Lemma dispatch_nothing {X} (snapshot : list X) (w : World) :
  foldl (fun w (_ : X) => w) w snapshot = w.
Proof. induction snapshot; simpl; auto. Qed.

Lemma getType_set_resolvedType_None r w : getType r (set_resolvedType r None w) = None.
Proof.
  unfold getType, set_resolvedType; simpl. rewrite lookup_alter_eq.
  by destruct (refs w !! r).
Qed.

Lemma getType_allocated r t w : getType r w = Some t -> allocated r w.
Proof. unfold getType, allocated. by destruct (refs w !! r). Qed.

Lemma selectorOf_allocated r s w : selectorOf r w = Some s -> allocated r w.
Proof. unfold selectorOf, allocated. by destruct (refs w !! r). Qed.

Lemma fresh_not_allocated r w : allocated r w -> fresh (dom (refs w)) ≠ r.
Proof.
  intros Ha Heq. apply (is_fresh (dom (refs w))). rewrite Heq.
  by apply elem_of_dom.
Qed.

(** Allocating another object changes nothing for [r]. *)
Lemma getType_alloc_ne r r' o w :
  r' ≠ r -> getType r (set_refs <[r' := o]> w) = getType r w.
Proof. intros Hne. unfold getType; simpl. by rewrite lookup_insert_ne. Qed.

Lemma allocated_alloc_ne r r' o w :
  r' ≠ r -> allocated r (set_refs <[r' := o]> w) <-> allocated r w.
Proof. intros Hne. unfold allocated; simpl. by rewrite lookup_insert_ne. Qed.

Lemma selectorOf_alloc_ne r r' o w :
  r' ≠ r -> selectorOf r (set_refs <[r' := o]> w) = selectorOf r w.
Proof. intros Hne. unfold selectorOf; simpl. by rewrite lookup_insert_ne. Qed.

(** ** Every reference is tidy in every reachable world *)

Section Tidy.
Variable onResolved : ListenerId -> RefId -> TypirType -> list Action.
Variable onInvalidated : ListenerId -> RefId -> option TypirType -> list Action.
Variable r : RefId.

Lemma tidy_harmless : harmless r (tidy r) onResolved onInvalidated.
Proof. left. apply tidy_stopResolving. Qed.

Lemma tidy_resolved_unsubscribed t w :
  tidy r w -> getType r w = Some t -> unsubscribed r w.
Proof.
  intros (_ & _ & Hin) Ht.
  split; intros H; (destruct Hin as [_ Hn]; [auto|]); congruence.
Qed.

Lemma tidy_resolve_own w : tidy r w -> tidy r (resolve onResolved r w).1.
Proof.
  intros Hw. unfold resolve.
  destruct (refs w !! r) as [this|] eqn:Hthis; [|done].
  destruct (resolvedType this); [done|].
  destruct (tryToResolve w (selector this)) as [t|]; [|done]. simpl.
  apply (blind_notifyResolved onResolved onInvalidated r (tidy r)
           (Frame_tidy r) tidy_harmless); [done|].
  destruct Hw as (Hg & Hi & _). split; [|split]; simpl.
  - by apply at_most_once_splice.
  - by apply at_most_once_splice.
  - intros [H|H]; [by apply Hg in H|by apply Hi in H].
Qed.

Lemma tidy_startResolving_own w :
  tidy r w -> allocated r w -> unsubscribed r w ->
  tidy r (startResolving onResolved r w).
Proof.
  intros (Hg & Hi & _) Ha [Hng Hni]. unfold startResolving.
  apply tidy_resolve_own. split; [|split]; simpl.
  - by apply at_most_once_snoc.
  - by apply at_most_once_snoc.
  - intros _. split; [by apply allocated_set_resolvedType|].
    apply getType_set_resolvedType_None.
Qed.

Lemma tidy_removedType_own t key w :
  tidy r w -> tidy r (removedType onResolved onInvalidated r t key w).
Proof.
  intros Hw. unfold removedType. case_decide as Ht; [|done].
  pose proof (tidy_resolved_unsubscribed t w Hw Ht) as Hu.
  pose proof (getType_allocated r t w Ht) as Ha.
  assert (Hall : (fun w => tidy r w ∧ allocated r w ∧ unsubscribed r w)
                   (notifyInvalidated onInvalidated r w)).
  { apply (blind_notifyInvalidated onResolved onInvalidated r); [| |done|done].
    - apply (Frame_and r (tidy r)); [apply Frame_tidy|].
      apply (Frame_and r (allocated r)); [apply Frame_allocated|].
      apply Frame_unsubscribed.
    - left. intros w' (H1 & H2 & [H3 H4]).
      split; [by apply tidy_stopResolving|]. split; [done|].
      split; simpl; intros Hin; by apply elem_of_splice_first in Hin. }
  destruct Hall as (H1 & H2 & H3). by apply tidy_startResolving_own.
Qed.

Lemma tidy_construct s w : tidy r w -> tidy r (construct onResolved s w).2.
Proof.
  intros Hw. unfold construct; simpl.
  set (r' := fresh (dom (refs w))).
  destruct (decide (r' = r)) as [Heq|Hne].
  - assert (Hna : ¬ allocated r w).
    { intros Ha. by apply (fresh_not_allocated r w Ha). }
    destruct Hw as (Hg & Hi & Hin). rewrite Heq.
    apply tidy_startResolving_own.
    + split; [done|]. split; [done|]. intros H. by destruct (Hin H).
    + unfold allocated; simpl. by rewrite lookup_insert_eq.
    + split; simpl; intros H; apply Hna, Hin; auto.
  - apply (frame_startResolving onResolved onInvalidated r (tidy r)
             (Frame_tidy r) tidy_harmless); [done|].
    destruct Hw as (Hg & Hi & Hin). split; [done|]. split; [done|].
    rewrite allocated_alloc_ne, getType_alloc_ne by done. done.
Qed.

Lemma tidy_step op w : tidy r w -> tidy r (step onResolved onInvalidated w op).
Proof.
  intros Hw. destruct op; simpl.
  - by apply tidy_construct.
  - unfold deconstruct. apply (frame_listeners r _ (Frame_tidy r)).
    destruct (decide (r0 = r)) as [->|Hne];
      [by apply tidy_stopResolving|by apply (frame_stop r _ (Frame_tidy r))].
  - by apply (blind_addListener onResolved onInvalidated r (tidy r)
                (Frame_tidy r) tidy_harmless).
  - by apply (frame_listeners r _ (Frame_tidy r)).
  - unfold graph_addNode.
    by apply (any_dispatch_added onResolved onInvalidated r (tidy r)
                (Frame_tidy r) tidy_harmless tidy_resolve_own).
  - unfold graph_removeNode.
    by apply (any_dispatch_removed onResolved onInvalidated r (tidy r)
                (Frame_tidy r) tidy_harmless tidy_removedType_own).
  - unfold graph_addEdge, addedEdge. by rewrite dispatch_nothing.
  - unfold graph_removeEdge, removedEdge. by rewrite dispatch_nothing.
  - unfold inference_addInferenceRule.
    by apply (any_dispatch_rule onResolved onInvalidated r (tidy r)
                (Frame_tidy r) tidy_harmless tidy_resolve_own).
  - unfold inference_removeInferenceRule, removedInferenceRule.
    by rewrite dispatch_nothing.
Qed.

Lemma tidy_run ops w : tidy r w -> tidy r (run onResolved onInvalidated ops w).
Proof.
  unfold run. apply foldl_preserves. intros op w' _. apply tidy_step.
Qed.

Lemma tidy_reachable ops : tidy r (run onResolved onInvalidated ops empty_world).
Proof.
  apply tidy_run. unfold tidy, at_most_once; simpl.
  split; [apply not_elem_of_nil|]. split; [apply not_elem_of_nil|].
  intros [H|H]; by apply elem_of_nil in H.
Qed.
End Tidy.

(** ** A reference that is not deconstructed keeps searching *)

Section Searching.
Variable onResolved : ListenerId -> RefId -> TypirType -> list Action.
Variable onInvalidated : ListenerId -> RefId -> option TypirType -> list Action.
Variable r : RefId.
Hypothesis Hnever : never_deconstructs r onResolved onInvalidated.

Lemma searching_harmless : harmless r (searching r) onResolved onInvalidated.
Proof. by right. Qed.

Lemma searching_resolve_own w :
  searching r w -> searching r (resolve onResolved r w).1.
Proof.
  intros Hw. unfold resolve.
  destruct (refs w !! r) as [this|] eqn:Hthis; [|done].
  destruct (resolvedType this); [done|].
  destruct (tryToResolve w (selector this)) as [t|]; [|done]. simpl.
  apply (blind_notifyResolved onResolved onInvalidated r (searching r)
           (Frame_searching r) searching_harmless); [done|].
  destruct Hw as [Ha _]. split; [by apply allocated_set_resolvedType|].
  intros Hn. change (getType r (set_resolvedType r (Some t) w) = None) in Hn.
  rewrite getType_set_resolvedType in Hn by done. done.
Qed.

Lemma searching_startResolving_own w :
  allocated r w -> searching r (startResolving onResolved r w).
Proof.
  intros Ha. unfold startResolving. apply searching_resolve_own.
  split; [by apply allocated_set_resolvedType|]. intros _.
  split; simpl; rewrite elem_of_app, list_elem_of_singleton; by right.
Qed.

Lemma searching_removedType_own t key w :
  searching r w -> searching r (removedType onResolved onInvalidated r t key w).
Proof.
  intros Hw. unfold removedType. case_decide as Ht; [|done].
  apply searching_startResolving_own.
  apply (blind_notifyInvalidated onResolved onInvalidated r (allocated r)
           (Frame_allocated r)); [by left|done|]. by destruct Hw.
Qed.

Lemma searching_step op w :
  op ≠ Deconstruct r ->
  searching r w -> searching r (step onResolved onInvalidated w op).
Proof.
  intros Hop Hw. destruct op; simpl.
  - unfold construct; simpl.
    apply (frame_startResolving onResolved onInvalidated r (searching r)
             (Frame_searching r) searching_harmless).
    { apply fresh_not_allocated. by destruct Hw. }
    pose proof (fresh_not_allocated r w (proj1 Hw)) as Hne.
    destruct Hw as [Ha Hs]. split; [by apply allocated_alloc_ne|].
    by rewrite getType_alloc_ne.
  - apply (frame_deconstruct r (searching r) (Frame_searching r)); [congruence|done].
  - by apply (blind_addListener onResolved onInvalidated r (searching r)
                (Frame_searching r) searching_harmless).
  - by apply (frame_listeners r _ (Frame_searching r)).
  - unfold graph_addNode.
    by apply (any_dispatch_added onResolved onInvalidated r (searching r)
                (Frame_searching r) searching_harmless searching_resolve_own).
  - unfold graph_removeNode.
    by apply (any_dispatch_removed onResolved onInvalidated r (searching r)
                (Frame_searching r) searching_harmless searching_removedType_own).
  - unfold graph_addEdge, addedEdge. by rewrite dispatch_nothing.
  - unfold graph_removeEdge, removedEdge. by rewrite dispatch_nothing.
  - unfold inference_addInferenceRule.
    by apply (any_dispatch_rule onResolved onInvalidated r (searching r)
                (Frame_searching r) searching_harmless searching_resolve_own).
  - unfold inference_removeInferenceRule, removedInferenceRule.
    by rewrite dispatch_nothing.
Qed.

Lemma searching_run ops w :
  Deconstruct r ∉ ops ->
  searching r w -> searching r (run onResolved onInvalidated ops w).
Proof.
  intros Hops. unfold run. apply foldl_preserves.
  intros op w' Hin. apply searching_step. by intros ->.
Qed.

End Searching.

(** ** A detached reference stays as it is *)

Section Detached.
Variable onResolved : ListenerId -> RefId -> TypirType -> list Action.
Variable onInvalidated : ListenerId -> RefId -> option TypirType -> list Action.
Variable r : RefId.

Lemma detached_harmless v ns : harmless r (detached r v ns) onResolved onInvalidated.
Proof. left. apply detached_stopResolving. Qed.

Lemma detached_step v ns op w :
  (forall l, op ≠ AddListener r l true) ->
  detached r v ns w -> detached r v ns (step onResolved onInvalidated w op).
Proof.
  intros Hop Hw.
  pose proof (Frame_detached r v ns) as HF.
  pose proof (detached_harmless v ns) as HH.
  destruct op; simpl.
  - unfold construct; simpl.
    pose proof (fresh_not_allocated r w (proj1 Hw)) as Hne.
    apply (frame_startResolving onResolved onInvalidated r _ HF HH); [done|].
    destruct Hw as (Ha & Hu & Hv & Hn). split; [by apply allocated_alloc_ne|].
    split; [done|]. split; [by rewrite getType_alloc_ne|done].
  - unfold deconstruct. apply (frame_listeners r _ HF).
    destruct (decide (r0 = r)) as [->|Hne];
      [by apply detached_stopResolving|by apply (frame_stop r _ HF)].
  - destruct (decide (r0 = r)) as [->|Hne].
    + destruct informAboutCurrentState; [by destruct (Hop l)|].
      by apply (frame_listeners r _ HF).
    + by apply (frame_addListener onResolved onInvalidated r _ HF HH).
  - by apply (frame_listeners r _ HF).
  - unfold graph_addNode.
    apply (frame_dispatch r _ (fun r' w => addedType onResolved r' t key w)).
    + intros r' w'. apply (frame_addedType onResolved onInvalidated r _ HF HH).
    + by destruct Hw as (_ & [Hg _] & _).
    + done.
  - unfold graph_removeNode.
    apply (frame_dispatch r _
             (fun r' w => removedType onResolved onInvalidated r' t key w)).
    + intros r' w'. apply (frame_removedType onResolved onInvalidated r _ HF HH).
    + by destruct Hw as (_ & [Hg _] & _).
    + done.
  - unfold graph_addEdge, addedEdge. by rewrite dispatch_nothing.
  - unfold graph_removeEdge, removedEdge. by rewrite dispatch_nothing.
  - unfold inference_addInferenceRule.
    apply (frame_dispatch r _ (fun r' w => addedInferenceRule onResolved r' w)).
    + intros r' w'. apply (frame_addedInferenceRule onResolved onInvalidated r _ HF HH).
    + by destruct Hw as (_ & [_ Hi] & _).
    + done.
  - unfold inference_removeInferenceRule, removedInferenceRule.
    by rewrite dispatch_nothing.
Qed.

Lemma detached_run v ns ops w :
  (forall l, AddListener r l true ∉ ops) ->
  detached r v ns w -> detached r v ns (run onResolved onInvalidated ops w).
Proof.
  intros Hops. unfold run. apply foldl_preserves.
  intros op w' Hin. apply detached_step. intros l ->. by apply (Hops l).
Qed.

(** The slot of a detached reference: also when a late listener asks for
    the current state. *)
Lemma detached_slot_step v op w :
  allocated r w ∧ unsubscribed r w ∧ getType r w = v ->
  let w' := step onResolved onInvalidated w op in
  allocated r w' ∧ unsubscribed r w' ∧ getType r w' = v.
Proof.
  intros Hw w'.
  assert (Hinform : (exists l, op = AddListener r l true)
                    ∨ forall l, op ≠ AddListener r l true).
  { destruct op; try (right; congruence).
    destruct (decide (r0 = r)) as [->|?]; [|right; congruence].
    destruct informAboutCurrentState; [left; eauto|right; congruence]. }
  destruct Hinform as [[l ->]|Hop].
  - subst w'.
    change (step onResolved onInvalidated w (AddListener r l true))
      with (addListener onResolved onInvalidated r l true w).
    apply (blind_addListener onResolved onInvalidated r
             (fun w => allocated r w ∧ unsubscribed r w ∧ getType r w = v)); try done.
    + apply (Frame_and r (allocated r)); [apply Frame_allocated|].
      apply (Frame_and r (unsubscribed r)); [apply Frame_unsubscribed|].
      apply Frame_getType.
    + left. intros w0 (H1 & [H2 H3] & H4). split; [done|]. split; [|done].
      split; simpl; intros Hin; by apply elem_of_splice_first in Hin.
  - destruct Hw as (H1 & H2 & H3).
    destruct (detached_step v (notifs r (trace w)) op w Hop) as (?&?&?&?); done.
Qed.

Lemma detached_slot_run v ops w :
  allocated r w ∧ unsubscribed r w ∧ getType r w = v ->
  getType r (run onResolved onInvalidated ops w) = v.
Proof.
  intros Hw.
  cut (allocated r (run onResolved onInvalidated ops w)
       ∧ unsubscribed r (run onResolved onInvalidated ops w)
       ∧ getType r (run onResolved onInvalidated ops w) = v); [by intros (_&_&?)|].
  unfold run.
  apply (foldl_preserves (fun w => allocated r w ∧ unsubscribed r w ∧ getType r w = v));
    [|done].
  intros op w' _. apply detached_slot_step.
Qed.
End Detached.

Lemma deconstruct_twice r w :
  tidy r w -> deconstruct r (deconstruct r w) = deconstruct r w.
Proof.
  intros (Hg & Hi & _). unfold deconstruct, stopResolving, set_listeners,
    inference_removeListener, graph_removeListener, set_inference_listeners,
    set_graph_listeners, set_refs; simpl.
  rewrite (splice_first_notin r (splice_first r (graph_listeners w))) by done.
  rewrite (splice_first_notin r (splice_first r (inference_listeners w))) by done.
  f_equal. rewrite alter_alter_eq. apply alter_ext. done.
Qed.

Lemma listenersOf_deconstruct r w : listenersOf r (deconstruct r w) = [].
Proof.
  unfold listenersOf, deconstruct, set_listeners; simpl.
  rewrite lookup_alter_eq. by destruct (refs w !! r).
Qed.

Lemma listenersOf_set_listeners_ne r r' f w :
  r' ≠ r -> listenersOf r (set_listeners r' f w) = listenersOf r w.
Proof. intros Hne. unfold listenersOf, set_listeners; simpl. by rewrite lookup_alter_ne. Qed.

(** ** The subscription invariant *)

(** C4: take any reachable world, construct a reference [r] in it, and let
    the host go on with any operations, none of which (and no callback of
    which) deconstructs [r]. After each of them: while the slot of [r] is
    empty, [r] is subscribed to the type graph and to the inference
    collector; while it holds a type, [r] is subscribed to neither. *)
Theorem subscribed_while_unresolved onResolved onInvalidated ops0 s ops :
  let w0 := run onResolved onInvalidated ops0 empty_world in
  let r := (construct onResolved s w0).1 in
  let w := run onResolved onInvalidated ops (construct onResolved s w0).2 in
  never_deconstructs r onResolved onInvalidated ->
  Deconstruct r ∉ ops ->
  (getType r w = None -> subscribed r w) ∧
  (forall t, getType r w = Some t -> unsubscribed r w).
Proof.
  intros w0 r w Hnever Hops. split.
  - cut (searching r w); [by intros [_ H]|].
    apply searching_run; [done|done|].
    apply (searching_startResolving_own onResolved onInvalidated); [done|].
    unfold allocated; simpl. by rewrite lookup_insert_eq.
  - intros t. apply tidy_resolved_unsubscribed.
    apply (tidy_run onResolved onInvalidated).
    apply (tidy_construct onResolved onInvalidated).
    apply tidy_reachable.
Qed.

(** ** Deconstruction *)

(** C8: [deconstruct()] in any reachable world, whatever the state of the
    reference: afterwards the reference is subscribed to neither
    collaborator and has no listeners, a second [deconstruct()] changes
    nothing, and whatever the host does later (any additions to the type
    graph, any other events and calls, except asking the reference itself
    for its current state through [addListener(l, true)]), the reference
    stays unsubscribed, its slot stays as it was, and it calls no listener. *)
Theorem deconstruct_is_final onResolved onInvalidated ops0 r ops :
  let w0 := run onResolved onInvalidated ops0 empty_world in
  let w1 := deconstruct r w0 in
  let w2 := run onResolved onInvalidated ops w1 in
  allocated r w0 ->
  (forall l, AddListener r l true ∉ ops) ->
  unsubscribed r w1 ∧ listenersOf r w1 = [] ∧ deconstruct r w1 = w1 ∧
  unsubscribed r w2 ∧ getType r w2 = getType r w0 ∧
  notifs r (trace w2) = notifs r (trace w0).
Proof.
  intros w0 w1 w2 Ha Hops.
  pose proof (tidy_reachable onResolved onInvalidated r ops0) as Ht. fold w0 in Ht.
  assert (Hu : unsubscribed r w1) by (by apply unsubscribed_stopResolving).
  assert (Hd : detached r (getType r w0) (notifs r (trace w0)) w1).
  { split; [unfold w1, deconstruct; rewrite allocated_set_listeners; exact Ha|].
    split; [done|].
    split; [exact (getType_set_listeners r r _ (stopResolving r w0))|done]. }
  apply (detached_run onResolved onInvalidated r _ _ ops) in Hd; [|done].
  destruct Hd as (_ & Hu2 & Hv & Hn).
  split; [done|]. split; [apply listenersOf_deconstruct|].
  split; [by apply deconstruct_twice|]. done.
Qed.

(** C10: [deconstruct()] leaves the slot alone. For a reference that is
    resolved to [t] in a reachable world, [getType()] returns [t] right
    after [deconstruct()] and after anything the host does later; of the
    world, [deconstruct()] changes only the two listener arrays of the
    collaborators and the listener list of this reference. *)
Theorem deconstruct_keeps_resolved_type onResolved onInvalidated ops0 r t ops :
  let w0 := run onResolved onInvalidated ops0 empty_world in
  let w1 := deconstruct r w0 in
  getType r w0 = Some t ->
  getType r w1 = Some t ∧
  getType r (run onResolved onInvalidated ops w1) = Some t ∧
  graph_nodes w1 = graph_nodes w0 ∧ inference w1 = inference w0 ∧
  trace w1 = trace w0 ∧
  (forall r', getType r' w1 = getType r' w0 ∧ selectorOf r' w1 = selectorOf r' w0 ∧
              (r' ≠ r -> listenersOf r' w1 = listenersOf r' w0)).
Proof.
  intros w0 w1 Ht.
  pose proof (tidy_reachable onResolved onInvalidated r ops0) as Hty. fold w0 in Hty.
  assert (H1 : getType r w1 = Some t).
  { unfold w1, deconstruct. rewrite getType_set_listeners. exact Ht. }
  split; [done|]. split.
  - apply detached_slot_run. split; [|split; [|done]].
    + unfold w1, deconstruct. rewrite allocated_set_listeners.
      exact (getType_allocated r t w0 Ht).
    + by apply unsubscribed_stopResolving.
  - split; [done|]. split; [done|]. split; [done|]. intros r'.
    split; [exact (getType_set_listeners r' r _ (stopResolving r w0))|].
    split; [exact (selectorOf_set_listeners r' r _ (stopResolving r w0))|].
    intros Hne.
    exact (listenersOf_set_listeners_ne r' r _ (stopResolving r w0) (not_eq_sym Hne)).
Qed.

(** ** Waiting for an identifier, and resolving when it arrives *)

Section Waiting.
Variable onResolved : ListenerId -> RefId -> TypirType -> list Action.
Variable onInvalidated : ListenerId -> RefId -> option TypirType -> list Action.
Variable r : RefId.
Variable key : string.

Lemma waiting_harmless : harmless r (waiting r key) onResolved onInvalidated.
Proof. left. intros w Hw. exact Hw. Qed.

Lemma waiting_resolve_fails w :
  waiting r key w -> resolve onResolved r w = (w, RESOLVING_FAILED).
Proof.
  intros (Hs & Hn & Hg). unfold resolve. unfold selectorOf, getType in *.
  destruct (refs w !! r) as [this|]; [|done]. simpl in *.
  rewrite Hg. injection Hs as ->. simpl. unfold graph_getType. by rewrite Hn.
Qed.

Lemma waiting_resolve_own w :
  waiting r key w -> waiting r key (resolve onResolved r w).1.
Proof. intros Hw. by rewrite waiting_resolve_fails. Qed.

Lemma waiting_removedType_own t k w :
  waiting r key w -> waiting r key (removedType onResolved onInvalidated r t k w).
Proof.
  intros Hw. unfold removedType. case_decide as Ht; [|done].
  destruct Hw as (_ & _ & Hg). congruence.
Qed.

Lemma waiting_step op w :
  (forall t, op ≠ AddNode t key) ->
  waiting r key w -> waiting r key (step onResolved onInvalidated w op).
Proof.
  intros Hop Hw.
  pose proof (Frame_waiting r key) as HF.
  pose proof waiting_harmless as HH.
  assert (Hblind : forall e w, waiting r key w -> waiting r key (log e w)) by done.
  destruct op; simpl.
  - unfold construct; simpl.
    pose proof (fresh_not_allocated r w
                  (selectorOf_allocated r _ w (proj1 Hw))) as Hne.
    apply (frame_startResolving onResolved onInvalidated r _ HF HH); [done|].
    destruct Hw as (Hs & Hn & Hg). split; [by rewrite selectorOf_alloc_ne|].
    split; [done|]. by rewrite getType_alloc_ne.
  - unfold deconstruct. by apply (frame_listeners r _ HF).
  - by apply (blind_addListener onResolved onInvalidated r _ HF HH).
  - by apply (frame_listeners r _ HF).
  - unfold graph_addNode.
    apply (any_dispatch_added onResolved onInvalidated r _ HF HH waiting_resolve_own).
    destruct Hw as (Hs & Hn & Hg). split; [done|]. split; [|done].
    simpl. rewrite lookup_insert_ne; [done|]. intros ->. by apply (Hop t).
  - unfold graph_removeNode.
    apply (any_dispatch_removed onResolved onInvalidated r _ HF HH
             waiting_removedType_own).
    destruct Hw as (Hs & Hn & Hg). split; [done|]. split; [|done].
    simpl. rewrite lookup_delete_None. by right.
  - unfold graph_addEdge, addedEdge. by rewrite dispatch_nothing.
  - unfold graph_removeEdge, removedEdge. by rewrite dispatch_nothing.
  - unfold inference_addInferenceRule.
    by apply (any_dispatch_rule onResolved onInvalidated r _ HF HH waiting_resolve_own).
  - unfold inference_removeInferenceRule, removedInferenceRule.
    by rewrite dispatch_nothing.
Qed.

Lemma waiting_run ops w :
  (forall t, AddNode t key ∉ ops) ->
  waiting r key w -> waiting r key (run onResolved onInvalidated ops w).
Proof.
  intros Hops. unfold run. apply foldl_preserves.
  intros op w' Hin. apply waiting_step. intros t ->. by apply (Hops t).
Qed.
End Waiting.

Lemma waiting_construct onResolved key w :
  graph_nodes w !! key = None ->
  waiting (construct onResolved (SelString key) w).1 key
          (construct onResolved (SelString key) w).2.
Proof.
  intros Hn. unfold construct; simpl.
  set (r := fresh (dom (refs w))).
  set (w' := set_refs <[r := mkReference (SelString key) None []]> w).
  assert (Hw : waiting r key
                 (inference_addListener r (graph_addListener r
                    (set_resolvedType r None w')))).
  { split; [|split].
    - change (selectorOf r (set_resolvedType r None w') = Some (SelString key)).
      rewrite selectorOf_set_resolvedType. unfold selectorOf, w'; simpl.
      by rewrite lookup_insert_eq.
    - done.
    - exact (getType_set_resolvedType_None r w'). }
  unfold startResolving. by rewrite (waiting_resolve_fails onResolved r key).
Qed.

Lemma resolve_success onResolved r w this t :
  refs w !! r = Some this -> resolvedType this = None ->
  tryToResolve w (selector this) = Some t ->
  (resolve onResolved r w).1
  = notifyResolved onResolved r t (stopResolving r (set_resolvedType r (Some t) w)).
Proof. intros Hthis Hslot Htry. unfold resolve. by rewrite Hthis, Hslot, Htry. Qed.

Section OwnNotifications.
Variable onResolved : ListenerId -> RefId -> TypirType -> list Action.
Variable onInvalidated : ListenerId -> RefId -> option TypirType -> list Action.
Variable r : RefId.

Lemma notifs_harmless ns :
  harmless r (fun w => notifs r (trace w) = ns) onResolved onInvalidated.
Proof. left. intros w Hw. exact Hw. Qed.

Lemma notifs_callResolved_own t l w :
  notifs r (trace (callResolved onResolved r t l w))
  = notifs r (trace w) ++ [Resolved l r t].
Proof.
  unfold callResolved.
  apply (frame_body_resolved onResolved onInvalidated r _
           (Frame_notifs r _) (notifs_harmless _)).
  simpl. by rewrite notifs_app, notifs_resolved_own.
Qed.

Lemma notifs_callInvalidated_own p l w :
  notifs r (trace (callInvalidated onInvalidated r p l w))
  = notifs r (trace w) ++ [Invalidated l r p].
Proof.
  unfold callInvalidated.
  apply (frame_body_invalidated onResolved onInvalidated r _
           (Frame_notifs r _) (notifs_harmless _)).
  simpl. by rewrite notifs_app, notifs_invalidated_own.
Qed.

(** The pass goes over the listener list as it was when the pass began. *)
Lemma notifs_notifyResolved_own t w :
  notifs r (trace (notifyResolved onResolved r t w))
  = notifs r (trace w) ++ map (fun l => Resolved l r t) (listenersOf r w).
Proof.
  unfold notifyResolved. generalize (listenersOf r w) as snapshot.
  intros snapshot. revert w.
  induction snapshot as [|l snapshot IH]; intros w; simpl.
  - by rewrite app_nil_r.
  - rewrite IH, notifs_callResolved_own, <-app_assoc. done.
Qed.
End OwnNotifications.

Lemma Frame_settled r v :
  Frame r (fun w => allocated r w ∧ unsubscribed r w ∧ getType r w = v).
Proof.
  apply (Frame_and r (allocated r)); [apply Frame_allocated|].
  apply (Frame_and r (unsubscribed r)); [apply Frame_unsubscribed|].
  apply Frame_getType.
Qed.

Lemma settled_harmless onResolved onInvalidated r v :
  harmless r (fun w => allocated r w ∧ unsubscribed r w ∧ getType r w = v)
           onResolved onInvalidated.
Proof.
  left. intros w0 (H1 & [H2 H3] & H4). split; [done|]. split; [|done].
  split; simpl; intros Hin; by apply elem_of_splice_first in Hin.
Qed.

Section Arrival.
Variable onResolved : ListenerId -> RefId -> TypirType -> list Action.
Variable onInvalidated : ListenerId -> RefId -> option TypirType -> list Action.
Variable r : RefId.
Variable key : string.
Variable t : TypirType.

(** What holds for [r] while the dispatch of [addedType] has not reached it. *)
Lemma Frame_before_arrival ns :
  Frame r (fun w => (selectorOf r w = Some (SelString key)
                     ∧ graph_nodes w !! key = Some t ∧ getType r w = None)
                    ∧ notifs r (trace w) = ns ∧ tidy r w).
Proof.
  apply Frame_and; [|apply Frame_and; [apply Frame_notifs|apply Frame_tidy]].
  apply (Frame_and r (fun w => selectorOf r w = Some (SelString key)));
    [apply Frame_selectorOf|].
  apply (Frame_and r (fun w => graph_nodes w !! key = Some t));
    [apply Frame_graph_nodes|apply Frame_getType].
Qed.

Lemma resolve_on_arrival w :
  selectorOf r w = Some (SelString key) -> graph_nodes w !! key = Some t ->
  getType r w = None -> tidy r w ->
  detached r (Some t)
    (notifs r (trace w) ++ map (fun l => Resolved l r t) (listenersOf r w))
    (addedType onResolved r t key w).
Proof.
  intros Hs Hn Hg Ht. unfold addedType.
  assert (Hthis : exists this, refs w !! r = Some this ∧ selector this = SelString key
                               ∧ resolvedType this = None).
  { unfold selectorOf, getType in *. destruct (refs w !! r) as [this|]; [|done].
    simpl in *. exists this. split; [done|]. split; [congruence|done]. }
  destruct Hthis as (this & Hthis & Hsel & Hslot).
  rewrite (resolve_success onResolved r w this t Hthis Hslot)
    by (rewrite Hsel; exact Hn).
  set (w' := stopResolving r (set_resolvedType r (Some t) w)).
  assert (Ha : allocated r w) by (by exists this).
  assert (Hsettled : allocated r (notifyResolved onResolved r t w')
                     ∧ unsubscribed r (notifyResolved onResolved r t w')
                     ∧ getType r (notifyResolved onResolved r t w') = Some t).
  { apply (blind_notifyResolved onResolved onInvalidated r _
             (Frame_settled r (Some t)) (settled_harmless _ _ r (Some t))); [done|].
    split; [exact (proj2 (allocated_set_resolvedType r r (Some t) w) Ha)|].
    split; [|exact (getType_set_resolvedType r (Some t) w Ha)].
    destruct Ht as (H1 & H2 & _). by split. }
  destruct Hsettled as (H1 & H2 & H3).
  split; [done|]. split; [done|]. split; [done|].
  rewrite (notifs_notifyResolved_own onResolved onInvalidated).
  f_equal. f_equal. exact (listenersOf_set_resolvedType r r (Some t) w).
Qed.

Lemma addNode_resolves w :
  tidy r w -> searching r w -> waiting r key w ->
  exists pre post,
    graph_listeners w = pre ++ r :: post ∧
    let before := foldl (fun w r' => addedType onResolved r' t key w)
                        (set_graph_nodes <[key := t]> w) pre in
    detached r (Some t)
      (notifs r (trace w) ++ map (fun l => Resolved l r t) (listenersOf r before))
      (graph_addNode onResolved t key w).
Proof.
  intros Ht [_ Hsub] (Hs & Hn & Hg).
  destruct (Hsub Hg) as [Hin _].
  destruct (at_most_once_split r _ (proj1 Ht) Hin) as (pre & post & Hl & Hpre & Hpost).
  exists pre, post. split; [done|]. intros before.
  unfold graph_addNode. rewrite Hl, foldl_app. simpl. fold before.
  set (ns := notifs r (trace w)).
  set (P := fun w' => (selectorOf r w' = Some (SelString key)
                       ∧ graph_nodes w' !! key = Some t ∧ getType r w' = None)
                      ∧ notifs r (trace w') = ns ∧ tidy r w').
  assert (Hbefore : P before).
  { unfold before.
    apply (frame_dispatch r P (fun r' w => addedType onResolved r' t key w)); [|done|].
    - intros r' w'.
      apply (frame_addedType onResolved onInvalidated r P (Frame_before_arrival ns)).
      left. intros w0 (H1 & H2 & H3). split; [done|]. split; [done|].
      by apply tidy_stopResolving.
    - split; [|done]. split; [done|]. split; [|done].
      simpl. by rewrite lookup_insert_eq. }
  destruct Hbefore as ((H1 & H2 & H3) & H4 & H5).
  set (ns' := ns ++ map (fun l => Resolved l r t) (listenersOf r before)).
  apply (frame_dispatch r (detached r (Some t) ns')
           (fun r' w => addedType onResolved r' t key w)); [|done|].
  - intros r' w'.
    apply (frame_addedType onResolved onInvalidated r _ (Frame_detached r _ _)
             (detached_harmless onResolved onInvalidated r _ _)).
  - unfold ns'. rewrite <-H4. by apply resolve_on_arrival.
Qed.
End Arrival.

(** C2: construct a reference for an identifier that the graph of a
    reachable world does not hold. It is unresolved, and stays so whatever
    the host does as long as no type is added under the identifier (and the
    reference is not deconstructed). When a type [t] is then added under the
    identifier, the reference is resolved to [t] and unsubscribed when the
    add returns, and during the add it has called [onTypeReferenceResolved]
    once for each entry of its listener list as that list was when the
    dispatch of the graph reached the reference, in the order of the list,
    and made no other call: what callbacks do to the list during the pass
    does not change the pass. *)
Theorem reference_resolves_during_add onResolved onInvalidated ops0 key ops t :
  let w0 := run onResolved onInvalidated ops0 empty_world in
  let r := (construct onResolved (SelString key) w0).1 in
  let w1 := (construct onResolved (SelString key) w0).2 in
  let w2 := run onResolved onInvalidated ops w1 in
  let w3 := graph_addNode onResolved t key w2 in
  graph_nodes w0 !! key = None ->
  never_deconstructs r onResolved onInvalidated ->
  Deconstruct r ∉ ops ->
  (forall t', AddNode t' key ∉ ops) ->
  getType r w1 = None ∧ getType r w2 = None ∧
  exists pre post,
    graph_listeners w2 = pre ++ r :: post ∧
    let before := foldl (fun w r' => addedType onResolved r' t key w)
                        (set_graph_nodes <[key := t]> w2) pre in
    getType r w3 = Some t ∧ unsubscribed r w3 ∧
    notifs r (trace w3)
    = notifs r (trace w2) ++ map (fun l => Resolved l r t) (listenersOf r before).
Proof.
  intros w0 r w1 w2 w3 Hkey Hnever Hops Hadds.
  assert (Hw1 : waiting r key w1) by (by apply waiting_construct).
  assert (Hw2 : waiting r key w2) by (by apply waiting_run).
  assert (Hs2 : searching r w2).
  { apply searching_run; [done|done|].
    apply (searching_startResolving_own onResolved onInvalidated); [done|].
    unfold allocated; simpl. by rewrite lookup_insert_eq. }
  assert (Ht2 : tidy r w2).
  { apply (tidy_run onResolved onInvalidated).
    apply (tidy_construct onResolved onInvalidated). apply tidy_reachable. }
  split; [by destruct Hw1 as (_ & _ & ?)|]. split; [by destruct Hw2 as (_ & _ & ?)|].
  destruct (addNode_resolves onResolved onInvalidated r key t w2 Ht2 Hs2 Hw2)
    as (pre & post & Hl & Hd).
  exists pre, post. split; [done|]. intros before.
  destruct Hd as (_ & Hu & Hg & Hn). done.
Qed.

(** ** The invalidation pass *)

Section Invalidation.
Variable onResolved : ListenerId -> RefId -> TypirType -> list Action.
Variable onInvalidated : ListenerId -> RefId -> option TypirType -> list Action.
Variable r : RefId.
Variable t : TypirType.

Lemma getType_harmless v :
  harmless r (fun w => getType r w = v) onResolved onInvalidated.
Proof. left. intros w Hw. exact Hw. Qed.

Lemma notifs_notifyInvalidated_own w :
  getType r w = Some t ->
  notifs r (trace (notifyInvalidated onInvalidated r w))
  = notifs r (trace w) ++ map (fun l => Invalidated l r (Some t)) (listenersOf r w).
Proof.
  unfold notifyInvalidated. generalize (listenersOf r w) as snapshot.
  intros snapshot. revert w.
  induction snapshot as [|l snapshot IH]; intros w Hw; simpl.
  - by rewrite app_nil_r.
  - rewrite IH.
    + rewrite (notifs_callInvalidated_own onResolved onInvalidated), Hw, <-app_assoc.
      done.
    + by apply (blind_callInvalidated onResolved onInvalidated r _
                  (Frame_getType r (Some t)) (getType_harmless (Some t))).
Qed.

(** Through the pass: the slot holds [t], and every event since the start
    of the pass has seen [t]. *)
Lemma Frame_in_pass (start : list Event) :
  Frame r (fun w => getType r w = Some t
                    ∧ exists evs, trace w = start ++ evs ∧ Forall (sees_previous r t) evs).
Proof.
  split.
  - intros l r' w (Hg & evs & Htr & Hall). split; [done|].
    exists (evs ++ [SawType l r' (getType r' w)]). simpl.
    split; [by rewrite Htr, app_assoc|].
    apply Forall_app. split; [done|]. apply Forall_singleton. by intros ->.
  - intros l r' t' w Hne (Hg & evs & Htr & Hall). split; [done|].
    exists (evs ++ [Resolved l r' t']). simpl.
    split; [by rewrite Htr, app_assoc|].
    apply Forall_app. split; [done|]. by apply Forall_singleton.
  - intros l r' p w Hne (Hg & evs & Htr & Hall). split; [done|].
    exists (evs ++ [Invalidated l r' p]). simpl.
    split; [by rewrite Htr, app_assoc|].
    apply Forall_app. split; [done|]. apply Forall_singleton. by intros ?.
  - intros r' f w (Hg & Hev). split; [by rewrite getType_set_listeners|done].
  - done.
  - done.
  - intros r' v w Hne (Hg & Hev).
    split; [by rewrite getType_set_resolvedType_ne|done].
Qed.

Lemma pass_sees_previous w :
  getType r w = Some t ->
  getType r (notifyInvalidated onInvalidated r w) = Some t
  ∧ exists evs, trace (notifyInvalidated onInvalidated r w) = trace w ++ evs
                ∧ Forall (sees_previous r t) evs.
Proof.
  intros Hw. unfold notifyInvalidated.
  apply (foldl_preserves
           (fun w' => getType r w' = Some t
                      ∧ exists evs, trace w' = trace w ++ evs
                                    ∧ Forall (sees_previous r t) evs)).
  - intros l w' _ (Hg & evs & Htr & Hall). unfold callInvalidated.
    apply (frame_body_invalidated onResolved onInvalidated r _
             (Frame_in_pass (trace w))).
    { left. intros w0 H0. exact H0. }
    split; [done|]. exists (evs ++ [Invalidated l r (getType r w')]). simpl.
    split; [by rewrite Htr, app_assoc|].
    apply Forall_app. split; [done|]. apply Forall_singleton. by intros _.
  - split; [done|]. exists []. by rewrite app_nil_r.
Qed.
End Invalidation.

(** C9: when [removedType] finds the removed type in the slot, the pass
    over the listeners runs on a world whose slot still holds that type. At
    the end of the pass the slot still holds it; during the pass every
    [getType()] of a callback on the reference returned it and every call of
    [onTypeReferenceInvalidated] passed it, once per entry of the listener
    list as it was at the start; only then [startResolving] runs, and its
    first step empties the slot. *)
Theorem invalidation_pass_keeps_slot onResolved onInvalidated r t key w :
  getType r w = Some t ->
  let pass := notifyInvalidated onInvalidated r w in
  getType r pass = Some t
  ∧ (exists evs,
       trace pass = trace w ++ evs
       ∧ Forall (sees_previous r t) evs
       ∧ notifs r evs = map (fun l => Invalidated l r (Some t)) (listenersOf r w))
  ∧ removedType onResolved onInvalidated r t key w
    = (resolve onResolved r
         (inference_addListener r (graph_addListener r
            (set_resolvedType r None pass)))).1
  ∧ getType r (set_resolvedType r None pass) = None.
Proof.
  intros Hw pass.
  destruct (pass_sees_previous onResolved onInvalidated r t w Hw)
    as (Hg & evs & Htr & Hall).
  split; [done|]. split; [|split].
  - exists evs. split; [done|]. split; [done|].
    pose proof (notifs_notifyInvalidated_own onResolved onInvalidated r t w Hw) as Hn.
    rewrite Htr, notifs_app in Hn.
    by apply app_inv_head in Hn.
  - unfold removedType. by rewrite decide_True.
  - apply getType_set_resolvedType_None.
Qed.

(** ** Events that a reference ignores, and removals that do not arrive *)

Lemma ignored_events onResolved onInvalidated r t key e w :
  getType r w ≠ Some t ->
  removedType onResolved onInvalidated r t key w = w
  ∧ addedEdge r e w = w ∧ removedEdge r e w = w ∧ removedInferenceRule r w = w.
Proof. intros Hne. unfold removedType. by rewrite decide_False. Qed.

(** The graph tells its listeners about a removal; a resolved reference has
    left the listener array, so in a world where every reference is tidy a
    removal changes the node map and nothing else. *)
Lemma removeNode_reaches_nobody onResolved onInvalidated t key w :
  (forall r, tidy r w) ->
  graph_removeNode onResolved onInvalidated t key w = set_graph_nodes (delete key) w.
Proof.
  intros Htidy. unfold graph_removeNode.
  apply (foldl_preserves (fun w' => w' = set_graph_nodes (delete key) w)); [|done].
  intros r w' Hin ->. unfold removedType. rewrite decide_False; [done|].
  destruct (Htidy r) as (_ & _ & Hsub).
  destruct Hsub as [_ Hnone]; [by left|].
  change (getType r w ≠ Some t). congruence.
Qed.

Lemma removal_never_invalidates onResolved onInvalidated ops t key r :
  let w := run onResolved onInvalidated ops empty_world in
  let w' := graph_removeNode onResolved onInvalidated t key w in
  getType r w' = getType r w ∧ trace w' = trace w
  ∧ graph_listeners w' = graph_listeners w.
Proof.
  intros w w'. unfold w'.
  rewrite removeNode_reaches_nobody; [done|].
  intros r'. apply tidy_reachable.
Qed.

(** C3 (what the code does): a reference for the identifier "A" with one
    listener resolves when [typeA] is added. When [typeA] is removed from the
    graph again, the reference is no longer a listener of the graph:
    [removedType] is not called, no [onTypeReferenceInvalidated] is logged,
    and [getType()] still returns the removed type; a later type added under
    "A" does not reach the reference either. *)
Theorem removed_type_is_not_invalidated :
  let w := run silent_resolved silent_invalidated
               [NewReference (SelString "A"); AddListener 0 7 false; AddNode typeA "A"]
               empty_world in
  let w' := graph_removeNode silent_resolved silent_invalidated typeA "A" w in
  let w'' := graph_addNode silent_resolved typeA2 "A" w' in
  (getType 0 w = Some typeA ∧ listenersOf 0 w = [7]
   ∧ trace w = [Resolved 7 0 typeA] ∧ graph_listeners w = [])
  ∧ (graph_nodes w' !! "A" = None ∧ getType 0 w' = Some typeA ∧ trace w' = trace w)
  ∧ (graph_nodes w'' !! "A" = Some typeA2 ∧ getType 0 w'' = Some typeA
     ∧ trace w'' = trace w).
Proof. vm_compute. repeat split. Qed.

(** ** [resolveTypeSelector] *)

Section ResolveTypeSelector.
Variable printDomainElement : Unknown -> bool -> string.

Lemma resolveTypeSelector_head w s :
  resolveTypeSelector printDomainElement w s
  = resolveTypeSelector printDomainElement w (head_selector s).
Proof.
  induction s as [t|key|i|r|f IH|d]; simpl; [done..|apply IH|done].
Qed.

Lemma head_selector_not_function s f : head_selector s ≠ SelFunction f.
Proof.
  revert f. induction s as [t|key|i|r|g IH|d]; intros f; simpl; [done..|apply IH|done].
Qed.

(** The two throwing cases, with their messages. *)
Lemma resolveTypeSelector_throws w s msg :
  resolveTypeSelector printDomainElement w s = Throw msg <->
  (exists key, head_selector s = SelString key ∧ graph_getType key w = None
               ∧ msg = "A type with identifier '" +:+ key
                         +:+ "' as TypeSelector does not exist in the type graph.")
  ∨ (exists d problems,
       head_selector s = SelDomain d
       ∧ inferType (DomainElement d) w = NotInferred problems
       ∧ msg = "For '" +:+ printDomainElement (DomainElement d) false
                 +:+ "' as TypeSelector, no type can be inferred.").
Proof.
  rewrite resolveTypeSelector_head.
  pose proof (head_selector_not_function s) as Hf.
  destruct (head_selector s) as [t|key|i|r|f|d]; simpl.
  - split; [done|]. by intros [(?&?&_)|(?&?&?&_)].
  - destruct (graph_getType key w) eqn:Hk.
    + split; [done|]. intros [(k&Hs&Hn&_)|(?&?&?&_)]; [|done].
      injection Hs as <-. congruence.
    + split.
      * intros [= <-]. left. by exists key.
      * intros [(k&Hs&_&->)|(?&?&?&_)]; [|done]. by injection Hs as <-.
  - split; [done|]. by intros [(?&?&_)|(?&?&?&_)].
  - split; [done|]. by intros [(?&?&_)|(?&?&?&_)].
  - by destruct (Hf f).
  - destruct (inferType (DomainElement d) w) eqn:Hi.
    + split; [done|]. intros [(?&?&_)|(d'&ps&Hs&Hn&_)]; [done|].
      injection Hs as <-. congruence.
    + split.
      * intros [= <-]. right. by exists d, problems.
      * intros [(?&?&_)|(d'&ps&Hs&_&->)]; [done|]. by injection Hs as <-.
Qed.

(** The branch for a [TypeReference] hands on whatever its slot holds. *)
Lemma resolveTypeSelector_absent w s :
  resolveTypeSelector printDomainElement w s = Return None <->
  exists r, head_selector s = SelReference r ∧ getType r w = None.
Proof.
  rewrite resolveTypeSelector_head.
  pose proof (head_selector_not_function s) as Hf.
  destruct (head_selector s) as [t|key|i|r|f|d]; simpl.
  - split; [done|]. by intros (?&?&_).
  - destruct (graph_getType key w); (split; [done|]); by intros (?&?&_).
  - split; [done|]. by intros (?&?&_).
  - split.
    + intros [= H]. by exists r.
    + intros (r'&Hs&Hn). injection Hs as <-. by rewrite Hn.
  - by destruct (Hf f).
  - destruct (inferType (DomainElement d) w); (split; [done|]); by intros (?&?&_).
Qed.

Lemma resolveTypeSelector_initializer w i :
  resolveTypeSelector printDomainElement w (SelInitializer i)
  = Return (Some (getTypeFinal i)).
Proof. reflexivity. Qed.
End ResolveTypeSelector.

(** C1 (what the code does): a reference for the identifier "A", constructed
    while the graph has no such type, is unresolved; with it as the selector
    [resolveTypeSelector] does not throw and returns [undefined]. *)
Theorem resolveTypeSelector_returns_undefined :
  let w := (construct silent_resolved (SelString "A") empty_world).2 in
  (construct silent_resolved (SelString "A") empty_world).1 = 0
  ∧ getType 0 w = None
  ∧ resolveTypeSelector example_printer w (SelReference 0) = Return None
  ∧ resolveTypeSelector example_printer w (SelString "A")
    = Throw "A type with identifier 'A' as TypeSelector does not exist in the type graph.".
Proof. vm_compute. repeat split. Qed.

(** ** The statements on concrete runs *)

Lemma busy_never_deconstructs r : never_deconstructs r busy_resolved busy_invalidated.
Proof.
  split; intros l r' t; unfold busy_resolved, busy_invalidated;
    case_decide; not_in_list.
Qed.

Lemma relation_check_outcomes_witness :
  (exists p,
     ensureNodeRelatedWithType example_inferType example_strategy identifier
       (DomainElement 2) (TypeValue typeA) "ASSIGNABLE_TYPE" false example_message = [p]
     ∧ subProblems p = Some [mkProblem "TypeEqualityProblem" "ASSIGNABLE_TYPE"])
  ∧ (exists p subs,
       ensureNodeIsAssignable example_inferType example_strategy identifier
         (DomainElement 2) (TypeValue typeA) example_message = [p]
       ∧ subProblems p = Some subs ∧ subs ≠ [])
  ∧ (exists p,
       ensureNodeHasNotType example_inferType example_strategy identifier
         (DomainElement 1) (TypeValue typeA) example_message = [p]
       ∧ subProblems p = Some []).
Proof.
  split; [|split].
  - apply (relation_check_outcomes example_inferType example_strategy identifier
             (DomainElement 2) (TypeValue typeA) "ASSIGNABLE_TYPE" false
             example_message typeB typeA).
    + discriminate.
    + discriminate.
    + reflexivity.
    + reflexivity.
  - apply (relation_check_outcomes example_inferType example_strategy identifier
             (DomainElement 2) (TypeValue typeA) "ASSIGNABLE_TYPE" false
             example_message typeB typeA) with (mkProblem "TypeEqualityProblem" "ASSIGNABLE_TYPE").
    + discriminate.
    + discriminate.
    + reflexivity.
    + reflexivity.
    + reflexivity.
  - apply (relation_check_outcomes example_inferType example_strategy identifier
             (DomainElement 1) (TypeValue typeA) "EQUAL_TYPE" true
             example_message typeA typeA).
    + discriminate.
    + discriminate.
    + reflexivity.
    + reflexivity.
    + reflexivity.
    + reflexivity.
Defined.

Lemma relation_check_skips_witness :
  ensureNodeRelatedWithType example_inferType example_strategy identifier
    (DomainElement 5) (TypeValue typeA) "EQUAL_TYPE" true example_message = []
  ∧ ensureNodeIsAssignable example_inferType example_strategy identifier
      (DomainElement 5) (TypeValue typeA) example_message = []
  ∧ ensureNodeIsEquals example_inferType example_strategy identifier
      (DomainElement 5) (TypeValue typeA) example_message = []
  ∧ ensureNodeHasNotType example_inferType example_strategy identifier
      (DomainElement 5) (TypeValue typeA) example_message = [].
Proof.
  apply (relation_check_skips example_inferType example_strategy identifier
           (DomainElement 5) (TypeValue typeA) "EQUAL_TYPE" true example_message).
  right. right. left. reflexivity.
Defined.

Lemma subscribed_while_unresolved_witness :
  let w := run busy_resolved busy_invalidated
               [AddListener 0 7 true; AddListener 0 8 false; AddNode typeA "A";
                RemoveNode typeA "A"]
               (construct busy_resolved (SelString "A")
                  (run busy_resolved busy_invalidated [AddNode typeB "B"] empty_world)).2 in
  (getType 0 w = None -> subscribed 0 w) ∧
  (forall t, getType 0 w = Some t -> unsubscribed 0 w).
Proof.
  apply (subscribed_while_unresolved busy_resolved busy_invalidated
           [AddNode typeB "B"] (SelString "A")
           [AddListener 0 7 true; AddListener 0 8 false; AddNode typeA "A";
            RemoveNode typeA "A"]).
  - apply busy_never_deconstructs.
  - not_in_list.
Defined.

Lemma deconstruct_is_final_witness :
  let w0 := run busy_resolved busy_invalidated
                [NewReference (SelString "A"); AddListener 0 7 false] empty_world in
  let w1 := deconstruct 0 w0 in
  let w2 := run busy_resolved busy_invalidated
                [AddNode typeA "A"; AddListener 0 8 false; AddNode typeA2 "A"] w1 in
  unsubscribed 0 w1 ∧ listenersOf 0 w1 = [] ∧ deconstruct 0 w1 = w1 ∧
  unsubscribed 0 w2 ∧ getType 0 w2 = getType 0 w0 ∧
  notifs 0 (trace w2) = notifs 0 (trace w0).
Proof.
  apply (deconstruct_is_final busy_resolved busy_invalidated
           [NewReference (SelString "A"); AddListener 0 7 false] 0
           [AddNode typeA "A"; AddListener 0 8 false; AddNode typeA2 "A"]).
  - unfold allocated. vm_compute. eexists. reflexivity.
  - intros l. not_in_list.
Defined.

Lemma deconstruct_keeps_resolved_type_witness :
  let w0 := run busy_resolved busy_invalidated
                [NewReference (SelString "A"); AddListener 0 7 false; AddNode typeA "A"]
                empty_world in
  let w1 := deconstruct 0 w0 in
  getType 0 w1 = Some typeA ∧
  getType 0 (run busy_resolved busy_invalidated
               [RemoveNode typeA "A"; AddListener 0 8 true] w1) = Some typeA ∧
  graph_nodes w1 = graph_nodes w0 ∧ inference w1 = inference w0 ∧
  trace w1 = trace w0 ∧
  (forall r', getType r' w1 = getType r' w0 ∧ selectorOf r' w1 = selectorOf r' w0 ∧
              (r' ≠ 0 -> listenersOf r' w1 = listenersOf r' w0)).
Proof.
  apply (deconstruct_keeps_resolved_type busy_resolved busy_invalidated
           [NewReference (SelString "A"); AddListener 0 7 false; AddNode typeA "A"]
           0 typeA [RemoveNode typeA "A"; AddListener 0 8 true]).
  vm_compute. reflexivity.
Defined.

Lemma reference_resolves_during_add_witness :
  let w0 := run busy_resolved busy_invalidated [AddNode typeB "B"] empty_world in
  let w1 := (construct busy_resolved (SelString "A") w0).2 in
  let w2 := run busy_resolved busy_invalidated
                [AddListener 0 7 false; AddListener 0 8 false] w1 in
  let w3 := graph_addNode busy_resolved typeA "A" w2 in
  getType 0 w1 = None ∧ getType 0 w2 = None ∧
  exists pre post,
    graph_listeners w2 = pre ++ 0 :: post ∧
    let before := foldl (fun w r' => addedType busy_resolved r' typeA "A" w)
                        (set_graph_nodes <["A" := typeA]> w2) pre in
    getType 0 w3 = Some typeA ∧ unsubscribed 0 w3 ∧
    notifs 0 (trace w3)
    = notifs 0 (trace w2) ++ map (fun l => Resolved l 0 typeA) (listenersOf 0 before).
Proof.
  apply (reference_resolves_during_add busy_resolved busy_invalidated
           [AddNode typeB "B"] "A" [AddListener 0 7 false; AddListener 0 8 false] typeA).
  - vm_compute. reflexivity.
  - apply busy_never_deconstructs.
  - not_in_list.
  - intros t'. not_in_list.
Defined.

(** The same run, computed: listener 7 removes listener 8 and registers
    listener 9 while it is notified; the pass still calls 8 and does not
    call 9, and the listener list afterwards is [7; 9]. *)
Example snapshot_of_the_pass :
  let w2 := run busy_resolved busy_invalidated
                [NewReference (SelString "A"); AddListener 0 7 false;
                 AddListener 0 8 false] empty_world in
  let w3 := graph_addNode busy_resolved typeA "A" w2 in
  listenersOf 0 w2 = [7; 8]
  ∧ trace w3 = [Resolved 7 0 typeA; SawType 7 0 (Some typeA);
                Resolved 8 0 typeA; SawType 8 0 (Some typeA)]
  ∧ listenersOf 0 w3 = [7; 9].
Proof. vm_compute. repeat split. Qed.

Lemma invalidation_pass_keeps_slot_witness :
  let w := run busy_resolved busy_invalidated
               [NewReference (SelString "A"); AddListener 0 7 false;
                AddListener 0 8 false; AddNode typeA "A"] empty_world in
  let pass := notifyInvalidated busy_invalidated 0 w in
  getType 0 pass = Some typeA
  ∧ (exists evs,
       trace pass = trace w ++ evs
       ∧ Forall (sees_previous 0 typeA) evs
       ∧ notifs 0 evs = map (fun l => Invalidated l 0 (Some typeA)) (listenersOf 0 w))
  ∧ removedType busy_resolved busy_invalidated 0 typeA "A" w
    = (resolve busy_resolved 0
         (inference_addListener 0 (graph_addListener 0
            (set_resolvedType 0 None pass)))).1
  ∧ getType 0 (set_resolvedType 0 None pass) = None.
Proof.
  apply (invalidation_pass_keeps_slot busy_resolved busy_invalidated 0 typeA "A").
  vm_compute. reflexivity.
Defined.

(** What the handler does when it is called directly on the resolved
    reference of that run: both listeners are told, with the previous type,
    and the reference ends unresolved and subscribed again. *)
Example removedType_when_delivered :
  let w := run busy_resolved busy_invalidated
               [NewReference (SelString "A"); AddListener 0 7 false;
                AddListener 0 8 false; AddNode typeA "A"] empty_world in
  let w' := removedType busy_resolved busy_invalidated 0 typeA "A"
              (set_graph_nodes (delete "A") w) in
  listenersOf 0 w = [7; 9]
  ∧ notifs 0 (trace w') = notifs 0 (trace w)
                          ++ [Invalidated 7 0 (Some typeA); Invalidated 9 0 (Some typeA)]
  ∧ getType 0 w' = None ∧ graph_listeners w' = [0] ∧ inference_listeners w' = [0]
  ∧ getType 0 (graph_addNode busy_resolved typeA2 "A" w') = Some typeA2.
Proof. vm_compute. repeat split. Qed.

(** * Further properties of the modelled code *)

(** ** The two resolution functions side by side *)

Lemma tryToResolve_head w s : tryToResolve w s = tryToResolve w (head_selector s).
Proof.
  induction s as [t|key|i|r|f IH|d]; simpl; [done..|apply IH|done].
Qed.

(** X1: [tryToResolve] and [resolveTypeSelector] differ in two ways only.
    For a selector that ends in a type initializer the first gives the
    initial and the second the final handle. For every other selector, what
    [resolveTypeSelector] returns is what [tryToResolve] returns, and where
    [resolveTypeSelector] throws, [tryToResolve] returns [undefined]. *)
Theorem tryToResolve_agrees printDomainElement w s :
  match head_selector s with
  | SelInitializer i =>
    tryToResolve w s = Some (getTypeInitial i)
    ∧ resolveTypeSelector printDomainElement w s = Return (Some (getTypeFinal i))
  | _ =>
    match resolveTypeSelector printDomainElement w s with
    | Return v => tryToResolve w s = v
    | Throw _ => tryToResolve w s = None
    end
  end.
Proof.
  rewrite tryToResolve_head, (resolveTypeSelector_head printDomainElement w s).
  pose proof (head_selector_not_function s) as Hf.
  destruct (head_selector s) as [t|key|i|r|f|d]; simpl; try done.
  - unfold graph_getType. by destruct (graph_nodes w !! key).
  - by destruct (Hf f).
  - by destruct (inferType (DomainElement d) w).
Qed.

(** ** Listener registration *)

(** X3: [addListener(l, true)] makes exactly one call on a listener, on [l]:
    [onTypeReferenceResolved] with the resolved type when the slot holds
    one, [onTypeReferenceInvalidated] with [undefined] otherwise;
    [addListener(l, false)] logs nothing and appends [l] to the list of an
    existing reference. Neither changes the slot. *)
Theorem addListener_informs onResolved onInvalidated r l w :
  notifs r (trace (addListener onResolved onInvalidated r l true w))
  = notifs r (trace w)
    ++ [match getType r w with
        | Some t => Resolved l r t
        | None => Invalidated l r None
        end]
  ∧ trace (addListener onResolved onInvalidated r l false w) = trace w
  ∧ (allocated r w ->
     listenersOf r (addListener onResolved onInvalidated r l false w)
     = listenersOf r w ++ [l])
  ∧ (forall i, getType r (addListener onResolved onInvalidated r l i w) = getType r w).
Proof.
  split; [|split; [done|split]].
  - unfold addListener. rewrite (getType_set_listeners r r _ w : getType r (pushListener r l w) = getType r w).
    destruct (getType r w) as [t|].
    + by rewrite (notifs_callResolved_own onResolved onInvalidated).
    + by rewrite (notifs_callInvalidated_own onResolved onInvalidated).
  - intros [o Ho]. unfold addListener, pushListener, listenersOf, set_listeners; simpl.
    by rewrite lookup_alter_eq, Ho.
  - intros i.
    apply (blind_addListener onResolved onInvalidated r (fun w' => getType r w' = getType r w)
             (Frame_getType r _) (getType_harmless onResolved onInvalidated r _)); done.
Qed.

Lemma set_listeners_id r f w :
  (forall o, refs w !! r = Some o -> f (listeners o) = listeners o) ->
  set_listeners r f w = w.
Proof.
  intros Hf. destruct w as [g gl i il rs tr]. unfold set_listeners, set_refs; simpl in *.
  f_equal. apply alter_id. intros o Ho. rewrite (Hf o Ho). by destruct o.
Qed.

Lemma listenersOf_lookup r w o : refs w !! r = Some o -> listenersOf r w = listeners o.
Proof. intros Ho. unfold listenersOf. by rewrite Ho. Qed.

(** X4: [removeListener] takes the earliest registration of the listener out
    of the list and nothing else; for a listener that is not registered it
    changes nothing at all, so registering a new listener without asking for
    the state and removing it again gives back the world as it was. *)
Theorem removeListener_roundtrip onResolved onInvalidated r l w :
  listenersOf r (removeListener r l w) = splice_first l (listenersOf r w)
  ∧ (l ∉ listenersOf r w ->
     removeListener r l w = w
     ∧ removeListener r l (addListener onResolved onInvalidated r l false w) = w).
Proof.
  split.
  - unfold removeListener, listenersOf, set_listeners; simpl.
    rewrite lookup_alter_eq. by destruct (refs w !! r).
  - intros Hl. split.
    + apply set_listeners_id. intros o Ho. apply splice_first_notin.
      by rewrite <-(listenersOf_lookup r w o Ho).
    + unfold addListener, pushListener, removeListener.
      destruct w as [g gl i il rs tr]. unfold set_listeners, set_refs; simpl in *.
      f_equal. rewrite alter_alter_eq. apply alter_id. intros o Ho. simpl.
      rewrite splice_first_snoc; [by destruct o|].
      unfold listenersOf in Hl; simpl in Hl. by rewrite Ho in Hl.
Qed.

(** ** A resolved reference in a reachable world *)

(** X9: in a world that the host can reach, a reference that holds a type
    keeps exactly that type whatever the host does next: it has left both
    listener arrays, so no event of the graph or of the inference collector
    is delivered to it. *)
Theorem resolved_reference_stays_resolved onResolved onInvalidated ops0 r t ops :
  let w0 := run onResolved onInvalidated ops0 empty_world in
  getType r w0 = Some t ->
  unsubscribed r w0 ∧ getType r (run onResolved onInvalidated ops w0) = Some t.
Proof.
  intros w0 Ht.
  assert (Hu : unsubscribed r w0).
  { apply (tidy_resolved_unsubscribed r t); [|done]. apply tidy_reachable. }
  split; [done|]. apply detached_slot_run.
  split; [by apply (getType_allocated r t)|done].
Qed.

(** ** Construction *)

Lemma tryToResolve_ext w w' s :
  graph_nodes w = graph_nodes w' -> inference w = inference w' ->
  (forall r, getType r w = getType r w') ->
  tryToResolve w s = tryToResolve w' s.
Proof.
  intros Hn Hi Hg.
  induction s as [t|key|i|r|f IH|d]; simpl; [done| |done|apply Hg|apply IH|].
  - unfold graph_getType. by rewrite Hn.
  - unfold inferType. by rewrite Hi.
Qed.

(** X2: the constructor in any reachable world. The new object is one that
    did not exist; its slot holds what [tryToResolve] finds for the selector
    in the world as it was (so a reference to a concrete type, to an
    initializer, or to an identifier or value that is already known is
    resolved at once); it has no listeners and no callback is called. If it
    is resolved it is in neither listener array, otherwise it is the last
    entry of both. *)
Theorem construct_outcome onResolved onInvalidated ops s :
  let w0 := run onResolved onInvalidated ops empty_world in
  let r := (construct onResolved s w0).1 in
  let w1 := (construct onResolved s w0).2 in
  ¬ allocated r w0
  ∧ selectorOf r w1 = Some s
  ∧ getType r w1 = tryToResolve w0 s
  ∧ listenersOf r w1 = [] ∧ trace w1 = trace w0
  ∧ graph_listeners w1
    = match tryToResolve w0 s with
      | Some _ => graph_listeners w0
      | None => graph_listeners w0 ++ [r]
      end
  ∧ inference_listeners w1
    = match tryToResolve w0 s with
      | Some _ => inference_listeners w0
      | None => inference_listeners w0 ++ [r]
      end.
Proof.
  intros w0 r w1.
  assert (Hna : refs w0 !! r = None).
  { apply not_elem_of_dom. apply is_fresh. }
  assert (Hnot : ¬ allocated r w0).
  { unfold allocated. rewrite Hna. by intros [? ?]. }
  pose proof (tidy_reachable onResolved onInvalidated r ops) as (_ & _ & Hin).
  fold w0 in Hin.
  assert (Hg : r ∉ graph_listeners w0) by (intros H; apply Hnot, Hin; auto).
  assert (Hi : r ∉ inference_listeners w0) by (intros H; apply Hnot, Hin; auto).
  set (w' := set_refs <[r := mkReference s None []]> w0).
  set (ws := inference_addListener r (graph_addListener r (set_resolvedType r None w'))).
  assert (Hthis : refs ws !! r = Some (mkReference s None [])).
  { unfold ws, w'; simpl. by rewrite lookup_alter_eq, lookup_insert_eq. }
  assert (Htry : tryToResolve ws s = tryToResolve w0 s).
  { apply tryToResolve_ext; [done|done|]. intros r'. unfold getType, ws, w'; simpl.
    destruct (decide (r' = r)) as [->|Hne].
    - by rewrite lookup_alter_eq, lookup_insert_eq, Hna.
    - by rewrite lookup_alter_ne, lookup_insert_ne. }
  assert (Hw1 : w1 = (resolve onResolved r ws).1) by done.
  assert (Hgl : graph_listeners ws = graph_listeners w0 ++ [r]) by done.
  assert (Hil : inference_listeners ws = inference_listeners w0 ++ [r]) by done.
  assert (Htr : trace ws = trace w0) by done.
  split; [done|]. rewrite Hw1. clear Hw1. clearbody ws. clear w'.
  unfold resolve. rewrite Hthis; simpl. rewrite Htry.
  destruct (tryToResolve w0 s) as [t|]; simpl.
  - assert (Hl : listenersOf r (stopResolving r (set_resolvedType r (Some t) ws)) = []).
    { change (listenersOf r (set_resolvedType r (Some t) ws) = []).
      rewrite listenersOf_set_resolvedType. unfold listenersOf. by rewrite Hthis. }
    unfold notifyResolved. rewrite Hl; simpl.
    split; [|split; [|split; [done|split; [done|split]]]].
    + change (selectorOf r (set_resolvedType r (Some t) ws) = Some s).
      rewrite selectorOf_set_resolvedType. unfold selectorOf. by rewrite Hthis.
    + change (getType r (set_resolvedType r (Some t) ws) = Some t).
      apply getType_set_resolvedType. by eexists.
    + rewrite Hgl. by apply splice_first_snoc.
    + rewrite Hil. by apply splice_first_snoc.
  - split; [|split; [|split; [|done]]].
    + unfold selectorOf. by rewrite Hthis.
    + unfold getType. by rewrite Hthis.
    + unfold listenersOf. by rewrite Hthis.
Qed.

(** ** One attempt to resolve *)

Lemma resolve_success_detached onResolved r w this t :
  refs w !! r = Some this -> resolvedType this = None ->
  tryToResolve w (selector this) = Some t -> tidy r w ->
  detached r (Some t)
    (notifs r (trace w) ++ map (fun l => Resolved l r t) (listenersOf r w))
    (resolve onResolved r w).1.
Proof.
  intros Hthis Hslot Htry Ht.
  rewrite (resolve_success onResolved r w this t Hthis Hslot Htry).
  set (w' := stopResolving r (set_resolvedType r (Some t) w)).
  assert (Ha : allocated r w) by (by exists this).
  assert (Hsettled : allocated r (notifyResolved onResolved r t w')
                     ∧ unsubscribed r (notifyResolved onResolved r t w')
                     ∧ getType r (notifyResolved onResolved r t w') = Some t).
  { apply (blind_notifyResolved onResolved silent_invalidated r _
             (Frame_settled r (Some t)) (settled_harmless _ _ r (Some t))); [done|].
    split; [exact (proj2 (allocated_set_resolvedType r r (Some t) w) Ha)|].
    split; [|exact (getType_set_resolvedType r (Some t) w Ha)].
    destruct Ht as (H1 & H2 & _). by split. }
  destruct Hsettled as (H1 & H2 & H3).
  split; [done|]. split; [done|]. split; [done|].
  rewrite (notifs_notifyResolved_own onResolved silent_invalidated).
  f_equal. f_equal. exact (listenersOf_set_resolvedType r r (Some t) w).
Qed.

(** X5: one call of [resolve] (which is all that [addedType] and
    [addedInferenceRule] do) on an existing, tidy reference either changes
    nothing or does everything. With a type in the slot, or with a selector
    that [tryToResolve] cannot resolve now, the world stays exactly as it
    was. Otherwise the slot holds the found type, the reference has left
    both listener arrays, and it has called [onTypeReferenceResolved] once
    for each entry of its listener list, in order, and nothing else. *)
Theorem resolve_outcome onResolved r w this :
  refs w !! r = Some this -> tidy r w ->
  match resolvedType this, tryToResolve w (selector this) with
  | Some _, _ => resolve onResolved r w = (w, ALREADY_RESOLVED)
  | None, None => resolve onResolved r w = (w, RESOLVING_FAILED)
  | None, Some t =>
    let w' := (resolve onResolved r w).1 in
    (resolve onResolved r w).2 = SUCCESSFULLY_RESOLVED
    ∧ getType r w' = Some t ∧ unsubscribed r w'
    ∧ notifs r (trace w')
      = notifs r (trace w) ++ map (fun l => Resolved l r t) (listeners this)
  end.
Proof.
  intros Hthis Ht.
  destruct (resolvedType this) as [t0|] eqn:Hslot.
  - unfold resolve. by rewrite Hthis, Hslot.
  - destruct (tryToResolve w (selector this)) as [t|] eqn:Htry.
    + intros w'.
      destruct (resolve_success_detached onResolved r w this t
                  Hthis Hslot Htry Ht) as (_ & Hu & Hg & Hn).
      split; [unfold resolve; by rewrite Hthis, Hslot, Htry|].
      split; [done|]. split; [done|].
      by rewrite <-(listenersOf_lookup r w this Hthis).
    + unfold resolve. by rewrite Hthis, Hslot, Htry.
Qed.

(** X15: resolving one reference does not touch another one. Whatever the
    callbacks of the listeners do with their calls, the slot of every other
    reference, also of one whose selector is the resolving reference, stays
    as it was, and that other reference calls no listener: a reference that
    selects another reference does not follow it by itself. *)
Theorem resolve_leaves_others onResolved r r' w :
  r' ≠ r ->
  getType r (resolve onResolved r' w).1 = getType r w
  ∧ selectorOf r (resolve onResolved r' w).1 = selectorOf r w
  ∧ notifs r (trace (resolve onResolved r' w).1) = notifs r (trace w).
Proof.
  intros Hne.
  apply (frame_resolve onResolved silent_invalidated r
           (fun w' => getType r w' = getType r w
                      ∧ selectorOf r w' = selectorOf r w
                      ∧ notifs r (trace w') = notifs r (trace w))); [| |done|done].
  - apply (Frame_and r (fun w' => getType r w' = getType r w)); [apply Frame_getType|].
    apply (Frame_and r (fun w' => selectorOf r w' = selectorOf r w));
      [apply Frame_selectorOf|apply Frame_notifs].
  - left. intros w0 H0. exact H0.
Qed.

(** ** A new inference rule *)

Lemma Frame_inference r i : Frame r (fun w => inference w = i).
Proof. by split. Qed.

(** X6: the inference collector tells its listeners about a new rule. A
    reference of a reachable world whose selector is a domain value, which
    is unresolved and still subscribed, and for which the collector now
    infers [t], is resolved to [t] and unsubscribed when the registration
    of the rule returns; during it the reference has called
    [onTypeReferenceResolved] once per entry of its listener list as the
    list was when the dispatch reached it, in order, and made no other
    call. *)
Theorem reference_resolves_on_inference_rule onResolved onInvalidated ops r d t inference' :
  let w := run onResolved onInvalidated ops empty_world in
  let w' := inference_addInferenceRule onResolved inference' w in
  selectorOf r w = Some (SelDomain d) -> getType r w = None ->
  r ∈ inference_listeners w ->
  inference' (DomainElement d) = Inferred t ->
  exists pre post,
    inference_listeners w = pre ++ r :: post ∧
    let before := foldl (fun w r' => addedInferenceRule onResolved r' w)
                        (set_inference inference' w) pre in
    getType r w' = Some t ∧ unsubscribed r w' ∧
    notifs r (trace w')
    = notifs r (trace w) ++ map (fun l => Resolved l r t) (listenersOf r before).
Proof.
  intros w w' Hs Hg Hin Hinf.
  pose proof (tidy_reachable onResolved onInvalidated r ops) as Ht. fold w in Ht.
  destruct (at_most_once_split r _ (proj1 (proj2 Ht)) Hin)
    as (pre & post & Hl & Hpre & Hpost).
  exists pre, post. split; [done|]. intros before.
  unfold w', inference_addInferenceRule. rewrite Hl, foldl_app. simpl. fold before.
  set (ns := notifs r (trace w)).
  set (P := fun w0 => (selectorOf r w0 = Some (SelDomain d)
                       ∧ inference w0 = inference' ∧ getType r w0 = None)
                      ∧ notifs r (trace w0) = ns ∧ tidy r w0).
  assert (HF : Frame r P).
  { apply Frame_and; [|apply Frame_and; [apply Frame_notifs|apply Frame_tidy]].
    apply (Frame_and r (fun w0 => selectorOf r w0 = Some (SelDomain d)));
      [apply Frame_selectorOf|].
    apply (Frame_and r (fun w0 => inference w0 = inference'));
      [apply Frame_inference|apply Frame_getType]. }
  assert (Hbefore : P before).
  { unfold before.
    apply (frame_dispatch r P (fun r' w => addedInferenceRule onResolved r' w));
      [|done|done].
    intros r' w0.
    apply (frame_addedInferenceRule onResolved onInvalidated r P HF).
    left. intros w1 (H1 & H2 & H3). split; [done|]. split; [done|].
    by apply tidy_stopResolving. }
  destruct Hbefore as ((H1 & H2 & H3) & H4 & H5).
  assert (Hthis : exists this, refs before !! r = Some this
                               ∧ selector this = SelDomain d
                               ∧ resolvedType this = None).
  { unfold selectorOf, getType in H1, H3.
    destruct (refs before !! r) as [this|]; [|done].
    simpl in *. exists this. split; [done|]. split; [congruence|done]. }
  destruct Hthis as (this & Hthis & Hsel & Hslot).
  assert (Htry : tryToResolve before (selector this) = Some t).
  { rewrite Hsel. simpl. unfold inferType. by rewrite H2, Hinf. }
  pose proof (resolve_success_detached onResolved r before this t
                Hthis Hslot Htry H5) as Hd.
  rewrite H4 in Hd.
  set (ns' := ns ++ map (fun l => Resolved l r t) (listenersOf r before)) in *.
  cut (detached r (Some t) ns'
         (foldl (fun w0 r' => addedInferenceRule onResolved r' w0)
                (addedInferenceRule onResolved r before) post)).
  { by intros (_ & ? & ? & ?). }
  apply (frame_dispatch r (detached r (Some t) ns')
           (fun r' w => addedInferenceRule onResolved r' w)); [|done|done].
  intros r' w0.
  apply (frame_addedInferenceRule onResolved onInvalidated r _ (Frame_detached r _ _)
           (detached_harmless onResolved onInvalidated r _ _)).
Qed.

(** ** [removedType] when it is called *)

Section Delivered.
Variable onResolved : ListenerId -> RefId -> TypirType -> list Action.
Variable onInvalidated : ListenerId -> RefId -> option TypirType -> list Action.
Variable r : RefId.
Variable t : TypirType.
Variable key : string.
Variable w : World.
Variable this : TypeReference.
Hypothesis Hthis : refs w !! r = Some this.
Hypothesis Hslot : resolvedType this = Some t.
Hypothesis Htidy : tidy r w.

Lemma delivered_getType : getType r w = Some t.
Proof. unfold getType. by rewrite Hthis. Qed.

Lemma delivered_pass :
  let pass := notifyInvalidated onInvalidated r w in
  (tidy r pass ∧ allocated r pass ∧ unsubscribed r pass
   ∧ selectorOf r pass = Some (selector this))
  ∧ notifs r (trace pass)
    = notifs r (trace w) ++ map (fun l => Invalidated l r (Some t)) (listeners this).
Proof.
  intros pass. split.
  - apply (blind_notifyInvalidated onResolved onInvalidated r
             (fun w' => tidy r w' ∧ allocated r w' ∧ unsubscribed r w'
                        ∧ selectorOf r w' = Some (selector this))); [| |done|].
    + apply (Frame_and r (tidy r)); [apply Frame_tidy|].
      apply (Frame_and r (allocated r)); [apply Frame_allocated|].
      apply (Frame_and r (unsubscribed r)); [apply Frame_unsubscribed|].
      apply Frame_selectorOf.
    + left. intros w' (H1 & H2 & [H3 H4] & H5).
      split; [by apply tidy_stopResolving|]. split; [done|]. split; [|done].
      split; simpl; intros Hin; by apply elem_of_splice_first in Hin.
    + split; [done|]. split; [by exists this|].
      split; [exact (tidy_resolved_unsubscribed r t w Htidy delivered_getType)|].
      unfold selectorOf. by rewrite Hthis.
  - unfold pass.
    rewrite (notifs_notifyInvalidated_own onResolved onInvalidated r t w delivered_getType).
    by rewrite (listenersOf_lookup r w this Hthis).
Qed.

Lemma removedType_delivered :
  let pass := notifyInvalidated onInvalidated r w in
  let restart := inference_addListener r (graph_addListener r
                   (set_resolvedType r None pass)) in
  let w' := removedType onResolved onInvalidated r t key w in
  let told := notifs r (trace w)
              ++ map (fun l => Invalidated l r (Some t)) (listeners this) in
  match tryToResolve restart (selector this) with
  | None => w' = restart ∧ getType r w' = None ∧ subscribed r w'
            ∧ notifs r (trace w') = told
  | Some t' => getType r w' = Some t' ∧ unsubscribed r w'
               ∧ notifs r (trace w')
                 = told ++ map (fun l => Resolved l r t') (listenersOf r pass)
  end.
Proof.
  intros pass restart w' told.
  destruct delivered_pass as ((Hp1 & Hp2 & [Hp3 Hp4] & Hp5) & Hp6). fold pass in Hp1, Hp2, Hp3, Hp4, Hp5, Hp6.
  assert (Hw' : w' = (resolve onResolved r restart).1).
  { unfold w', removedType. by rewrite (decide_True _ _ delivered_getType). }
  assert (Hthis' : exists this', refs restart !! r = Some this'
                                 ∧ selector this' = selector this
                                 ∧ resolvedType this' = None).
  { unfold selectorOf in Hp5. unfold restart; simpl. rewrite lookup_alter_eq.
    destruct (refs pass !! r) as [o|]; [|done]. simpl in *.
    eexists. split; [done|]. split; [simpl; congruence|done]. }
  destruct Hthis' as (this' & Hthis' & Hsel & Hnone).
  assert (Hgnone : getType r restart = None).
  { exact (getType_set_resolvedType_None r pass). }
  assert (Htr : tidy r restart).
  { destruct Hp1 as (Hg & Hi & _). split; [|split]; simpl.
    - by apply at_most_once_snoc.
    - by apply at_most_once_snoc.
    - intros _. split; [by apply allocated_set_resolvedType|done]. }
  assert (Hnr : notifs r (trace restart) = told) by exact Hp6.
  rewrite <-Hsel.
  destruct (tryToResolve restart (selector this')) as [t'|] eqn:Htry.
  - destruct (resolve_success_detached onResolved r restart this' t'
                Hthis' Hnone Htry Htr) as (_ & Hu & Hg & Hn).
    rewrite Hw'. split; [done|]. split; [done|].
    rewrite Hn, Hnr. f_equal. f_equal.
    exact (listenersOf_set_resolvedType r r None pass).
  - assert (Hres : resolve onResolved r restart = (restart, RESOLVING_FAILED)).
    { unfold resolve. by rewrite Hthis', Hnone, Htry. }
    rewrite Hw', Hres. simpl. split; [done|]. split; [done|]. split; [|done].
    split; simpl; rewrite elem_of_app, list_elem_of_singleton; by right.
Qed.
End Delivered.

(** X7: [removedType] called on an existing, tidy reference with the type
    that its slot holds. Every entry of the listener list gets one
    [onTypeReferenceInvalidated] with that type, in order. Then the slot is
    emptied, the reference subscribes to both collaborators again, and it
    tries its selector in that state. If the selector finds nothing, this is
    the final state: unresolved and subscribed, with no other call made. If
    it finds a type, the reference is resolved to it and unsubscribed again,
    and the listeners registered at the end of the pass also got one
    [onTypeReferenceResolved] each. *)
Theorem removedType_invalidates_and_retries onResolved onInvalidated r t key w this :
  refs w !! r = Some this -> resolvedType this = Some t -> tidy r w ->
  let pass := notifyInvalidated onInvalidated r w in
  let restart := inference_addListener r (graph_addListener r
                   (set_resolvedType r None pass)) in
  let w' := removedType onResolved onInvalidated r t key w in
  let told := notifs r (trace w)
              ++ map (fun l => Invalidated l r (Some t)) (listeners this) in
  match tryToResolve restart (selector this) with
  | None => w' = restart ∧ getType r w' = None ∧ subscribed r w'
            ∧ notifs r (trace w') = told
  | Some t' => getType r w' = Some t' ∧ unsubscribed r w'
               ∧ notifs r (trace w')
                 = told ++ map (fun l => Resolved l r t') (listenersOf r pass)
  end.
Proof. intros Hthis Hslot Ht. by apply removedType_delivered. Qed.

(** X8: a reference whose selector is a concrete type cannot be left
    unresolved by [removedType]: the retry does not ask the graph, so the
    reference is resolved to the selected type again at once, after its
    listeners were told about the invalidation and then about the
    resolution. *)
Theorem removedType_of_type_selector onResolved onInvalidated r t key w this t0 :
  refs w !! r = Some this -> resolvedType this = Some t -> tidy r w ->
  selector this = SelType t0 ->
  let pass := notifyInvalidated onInvalidated r w in
  let w' := removedType onResolved onInvalidated r t key w in
  getType r w' = Some t0 ∧ unsubscribed r w'
  ∧ notifs r (trace w')
    = notifs r (trace w)
      ++ map (fun l => Invalidated l r (Some t)) (listeners this)
      ++ map (fun l => Resolved l r t0) (listenersOf r pass).
Proof.
  intros Hthis Hslot Ht Hsel pass w'.
  pose proof (removedType_delivered onResolved onInvalidated r t key w this
                Hthis Hslot Ht) as H.
  simpl in H. rewrite Hsel in H. simpl in H.
  destruct H as (H1 & H2 & H3). split; [done|]. split; [done|].
  by rewrite app_assoc.
Qed.

(** ** The two listener arrays *)

Lemma at_most_once_NoDup {A} `{EqDecision A} (a : list A) :
  (forall x, at_most_once x a) -> NoDup a.
Proof.
  induction a as [|y a IH]; intros Hall; [constructor|].
  assert (Hy : y ∉ a).
  { specialize (Hall y). unfold at_most_once in Hall. simpl in Hall.
    by rewrite decide_True in Hall. }
  constructor; [done|]. apply IH. intros x. specialize (Hall x).
  unfold at_most_once in *. simpl in Hall. case_decide as Hxy.
  - subst. by rewrite splice_first_notin.
  - by apply not_elem_of_cons in Hall as [_ Hall].
Qed.

Section Paired.
Variable onResolved : ListenerId -> RefId -> TypirType -> list Action.
Variable onInvalidated : ListenerId -> RefId -> option TypirType -> list Action.

Lemma Frame_paired r : Frame r (fun w => graph_listeners w = inference_listeners w).
Proof.
  split; try done.
  - intros r' w _ H. simpl. by rewrite H.
  - intros r' w _ H. simpl. by rewrite H.
Qed.

Lemma paired_harmless r :
  harmless r (fun w => graph_listeners w = inference_listeners w)
           onResolved onInvalidated.
Proof. left. intros w H. simpl. by rewrite H. Qed.

Lemma paired_resolve r w :
  graph_listeners w = inference_listeners w ->
  graph_listeners (resolve onResolved r w).1
  = inference_listeners (resolve onResolved r w).1.
Proof.
  intros H. unfold resolve.
  destruct (refs w !! r) as [this|]; [|done].
  destruct (resolvedType this); [done|].
  destruct (tryToResolve w (selector this)) as [t|]; [|done]. simpl.
  apply (blind_notifyResolved onResolved onInvalidated r _
           (Frame_paired r) (paired_harmless r)); [done|].
  simpl. by rewrite H.
Qed.

Lemma paired_removedType r t key w :
  graph_listeners w = inference_listeners w ->
  graph_listeners (removedType onResolved onInvalidated r t key w)
  = inference_listeners (removedType onResolved onInvalidated r t key w).
Proof.
  intros H. unfold removedType. case_decide; [|done].
  unfold startResolving. apply paired_resolve. simpl. f_equal.
  by apply (blind_notifyInvalidated onResolved onInvalidated r _
              (Frame_paired r) (paired_harmless r)).
Qed.

Lemma paired_step op w :
  graph_listeners w = inference_listeners w ->
  graph_listeners (step onResolved onInvalidated w op)
  = inference_listeners (step onResolved onInvalidated w op).
Proof.
  intros H. destruct op; simpl.
  - unfold construct, startResolving; simpl. apply paired_resolve. simpl. by rewrite H.
  - by rewrite H.
  - by apply (blind_addListener onResolved onInvalidated r _
                (Frame_paired r) (paired_harmless r)).
  - done.
  - unfold graph_addNode.
    apply (foldl_preserves (fun w => graph_listeners w = inference_listeners w));
      [|done].
    intros r' w' _. apply paired_resolve.
  - unfold graph_removeNode.
    apply (foldl_preserves (fun w => graph_listeners w = inference_listeners w));
      [|done].
    intros r' w' _. apply paired_removedType.
  - unfold graph_addEdge, addedEdge. by rewrite dispatch_nothing.
  - unfold graph_removeEdge, removedEdge. by rewrite dispatch_nothing.
  - unfold inference_addInferenceRule.
    apply (foldl_preserves (fun w => graph_listeners w = inference_listeners w));
      [|done].
    intros r' w' _. apply paired_resolve.
  - unfold inference_removeInferenceRule, removedInferenceRule.
    by rewrite dispatch_nothing.
Qed.
End Paired.

(** X14: in every world that the host can reach, the listener array of the
    type graph holds no reference twice, it is equal to the listener array
    of the inference collector (the references subscribe to and leave both
    together), and every reference in it exists and has an empty slot. *)
Theorem listener_arrays_in_step onResolved onInvalidated ops :
  let w := run onResolved onInvalidated ops empty_world in
  NoDup (graph_listeners w)
  ∧ graph_listeners w = inference_listeners w
  ∧ (forall r, r ∈ graph_listeners w -> allocated r w ∧ getType r w = None).
Proof.
  intros w. split; [|split].
  - apply at_most_once_NoDup. intros r.
    by destruct (tidy_reachable onResolved onInvalidated r ops) as (H & _).
  - unfold w, run.
    apply (foldl_preserves (fun w => graph_listeners w = inference_listeners w));
      [|done].
    intros op w' _. apply paired_step.
  - intros r Hin.
    destruct (tidy_reachable onResolved onInvalidated r ops) as (_ & _ & H).
    apply H. by left.
Qed.

(** ** More on the relation checks *)

Section MoreConstraintFacts.
Variable inferType : Unknown -> InferenceResult.
Variable createTypeCheckStrategy :
  TypeCheckStrategy -> TypirType -> TypirType -> option TypirProblem.
Variable printType : TypirType -> string.


(** X11: for two sides that resolve to types, [ensureNodeIsEquals] and
    [ensureNodeHasNotType] are complementary: for the same arguments exactly
    one of them reports a problem, and it reports exactly one. *)
Theorem equals_and_hasNotType_complement domainNode expected message actualType expectedType :
  domainNode ≠ Undefined -> expected ≠ Undefined ->
  typeOf inferType domainNode = Some actualType ->
  typeOf inferType expected = Some expectedType ->
  let equals := ensureNodeIsEquals inferType createTypeCheckStrategy printType
                  domainNode expected message in
  let hasNot := ensureNodeHasNotType inferType createTypeCheckStrategy printType
                  domainNode expected message in
  (equals = [] <-> hasNot ≠ [])
  ∧ (length equals + length hasNot = 1)%nat
  ∧ (equals = [] <->
     createTypeCheckStrategy "EQUAL_TYPE" actualType expectedType = None).
Proof.
  intros Hd He Ha Hx equals hasNot.
  unfold equals, hasNot, ensureNodeIsEquals, ensureNodeHasNotType.
  rewrite !(related_resolved inferType createTypeCheckStrategy printType
              _ _ _ _ _ _ _ Hd He Ha Hx).
  destruct (createTypeCheckStrategy "EQUAL_TYPE" actualType expectedType); simpl;
    repeat split; try done; intros; done.
Qed.
End MoreConstraintFacts.

(** ** More on the collector *)

(** X12: registering further rules does not disturb what is there and
    removes no duplicates: the problems of the old rules come first,
    unchanged, followed by those of the new rules; so a rule registered
    twice reports twice, and a rule that reports nothing for the value can
    be left out without changing the result. *)
Theorem validate_after_registration (rules more : list ValidationRule)
    (rule : ValidationRule) (v : Unknown) :
  validate (addValidationRules more rules) v = validate rules v ++ validate more v
  ∧ validate (addValidationRules [rule; rule] rules) v
    = validate rules v ++ rule v ++ rule v
  ∧ (rule v = [] ->
     validate (addValidationRules more (addValidationRules [rule] rules)) v
     = validate (addValidationRules more rules) v).
Proof.
  assert (Happ : forall rs rs', validate (rs ++ rs') v = validate rs v ++ validate rs' v).
  { intros rs rs'. unfold validate.
    by rewrite !validate_from, map_app, concat_app. }
  unfold addValidationRules. split; [apply Happ|]. split.
  - rewrite Happ. unfold validate. simpl. by rewrite app_assoc.
  - intros Hr. rewrite !Happ. unfold validate at 2. simpl. rewrite Hr.
    by rewrite app_nil_r.
Qed.

(** ** [mapType] of the Lox example *)

(** X13: [mapType] throws in exactly three situations: without a type
    reference (with the message "a type reference must be given"), for a
    non-primitive reference to a class that the class kind does not know,
    and for a reference that is neither primitive nor linked when the
    function kind has no function type to offer (both with an empty
    message). A primitive reference is mapped to its primitive type without
    a look at the class or the function kind. *)
Theorem mapType_throws typeNumber typeString typeBool typeVoid getClassType
    todoFunctionType typeRef msg :
  (mapType typeNumber typeString typeBool typeVoid getClassType todoFunctionType typeRef
   = Throw msg
   <-> (typeRef = None ∧ msg = "a type reference must be given")
       ∨ (exists ref, typeRef = Some ref ∧ primitive ref = None ∧ msg = EmptyString
                      ∧ match reference_ref_name ref with
                        | Some name => getClassType name = None
                        | None => todoFunctionType = None
                        end))
  ∧ (forall ref p getClassType' todoFunctionType',
       typeRef = Some ref -> primitive ref = Some p ->
       mapType typeNumber typeString typeBool typeVoid getClassType todoFunctionType typeRef
       = Return match p with
                | lox_number => typeNumber
                | lox_string => typeString
                | lox_boolean => typeBool
                | lox_void => typeVoid
                end
       ∧ mapType typeNumber typeString typeBool typeVoid getClassType' todoFunctionType' typeRef
         = mapType typeNumber typeString typeBool typeVoid getClassType todoFunctionType typeRef).
Proof.
  split.
  - destruct typeRef as [[[p|] [name|]]|]; simpl.
    + split; [by destruct p|]. intros [[? _]|(ref & [= <-] & ? & _)]; done.
    + split; [by destruct p|]. intros [[? _]|(ref & [= <-] & ? & _)]; done.
    + destruct (getClassType name) eqn:Hc.
      * split; [done|]. intros [[? _]|(ref & [= <-] & _ & _ & H)]; [done|].
        simpl in H. congruence.
      * split.
        -- intros [= <-]. right. eexists. by repeat split.
        -- intros [[? _]|(ref & [= <-] & _ & -> & _)]; done.
    + destruct todoFunctionType eqn:Hf.
      * split; [done|]. intros [[? _]|(ref & [= <-] & _ & _ & H)]; [done|].
        simpl in H. congruence.
      * split.
        -- intros [= <-]. right. eexists. by repeat split.
        -- intros [[? _]|(ref & [= <-] & _ & -> & _)]; done.
    + split.
      * intros [= <-]. by left.
      * intros [[_ ->]|(ref & ? & _)]; done.
  - intros ref p g f -> Hp. simpl. rewrite Hp. by destruct p.
Qed.

(** ** The further properties on concrete runs *)

Lemma addListener_informs_witness :
  let w := run busy_resolved busy_invalidated
               [NewReference (SelString "A"); AddListener 0 7 false] empty_world in
  listenersOf 0 (addListener busy_resolved busy_invalidated 0 8 false w)
  = listenersOf 0 w ++ [8].
Proof.
  intros w.
  destruct (addListener_informs busy_resolved busy_invalidated 0 8 w) as (_ & _ & H & _).
  apply H. vm_compute. eexists. reflexivity.
Defined.

Lemma removeListener_roundtrip_witness :
  let w := run busy_resolved busy_invalidated
               [NewReference (SelString "A"); AddListener 0 7 false] empty_world in
  removeListener 0 8 w = w
  ∧ removeListener 0 8 (addListener busy_resolved busy_invalidated 0 8 false w) = w.
Proof.
  intros w.
  apply (removeListener_roundtrip busy_resolved busy_invalidated 0 8 w).
  vm_compute. not_in_list.
Defined.

Lemma resolved_reference_stays_resolved_witness :
  let w0 := run busy_resolved busy_invalidated
                [NewReference (SelString "A"); AddListener 0 7 false; AddNode typeA "A"]
                empty_world in
  unsubscribed 0 w0
  ∧ getType 0 (run busy_resolved busy_invalidated
                 [RemoveNode typeA "A"; AddNode typeA2 "A"; Deconstruct 0] w0)
    = Some typeA.
Proof.
  apply (resolved_reference_stays_resolved busy_resolved busy_invalidated
           [NewReference (SelString "A"); AddListener 0 7 false; AddNode typeA "A"]
           0 typeA [RemoveNode typeA "A"; AddNode typeA2 "A"; Deconstruct 0]).
  vm_compute. reflexivity.
Defined.

Lemma resolve_outcome_witness :
  let w := set_graph_nodes <["A" := typeA]>
             (run busy_resolved busy_invalidated
                  [NewReference (SelString "A"); AddListener 0 7 false] empty_world) in
  let w' := (resolve busy_resolved 0 w).1 in
  (resolve busy_resolved 0 w).2 = SUCCESSFULLY_RESOLVED
  ∧ getType 0 w' = Some typeA ∧ unsubscribed 0 w'
  ∧ notifs 0 (trace w') = notifs 0 (trace w) ++ map (fun l => Resolved l 0 typeA) [7].
Proof.
  intros w.
  apply (resolve_outcome busy_resolved 0 w (mkReference (SelString "A") None [7])).
  - vm_compute. reflexivity.
  - exact (tidy_reachable busy_resolved busy_invalidated 0
             [NewReference (SelString "A"); AddListener 0 7 false]).
Defined.

Lemma resolve_leaves_others_witness :
  let w := set_graph_nodes <["A" := typeA]>
             (run busy_resolved busy_invalidated
                  [NewReference (SelString "A"); NewReference (SelReference 0)]
                  empty_world) in
  getType 1 (resolve busy_resolved 0 w).1 = getType 1 w
  ∧ selectorOf 1 (resolve busy_resolved 0 w).1 = selectorOf 1 w
  ∧ notifs 1 (trace (resolve busy_resolved 0 w).1) = notifs 1 (trace w).
Proof.
  intros w. apply (resolve_leaves_others busy_resolved 1 0 w). discriminate.
Defined.

Lemma reference_resolves_on_inference_rule_witness :
  let w := run busy_resolved busy_invalidated
               [NewReference (SelDomain 1); AddListener 0 7 false] empty_world in
  let w' := inference_addInferenceRule busy_resolved example_inferType w in
  exists pre post,
    inference_listeners w = pre ++ 0 :: post ∧
    let before := foldl (fun w r' => addedInferenceRule busy_resolved r' w)
                        (set_inference example_inferType w) pre in
    getType 0 w' = Some typeA ∧ unsubscribed 0 w' ∧
    notifs 0 (trace w')
    = notifs 0 (trace w) ++ map (fun l => Resolved l 0 typeA) (listenersOf 0 before).
Proof.
  apply (reference_resolves_on_inference_rule busy_resolved busy_invalidated
           [NewReference (SelDomain 1); AddListener 0 7 false] 0 1 typeA
           example_inferType).
  - vm_compute. reflexivity.
  - vm_compute. reflexivity.
  - vm_compute. left.
  - reflexivity.
Defined.

Lemma removedType_invalidates_and_retries_witness :
  let w := run busy_resolved busy_invalidated
               [NewReference (SelString "A"); AddListener 0 7 false;
                AddListener 0 8 false; AddNode typeA "A"; RemoveNode typeA "A"]
               empty_world in
  let w' := removedType busy_resolved busy_invalidated 0 typeA "A" w in
  getType 0 w' = None ∧ subscribed 0 w'
  ∧ notifs 0 (trace w')
    = notifs 0 (trace w) ++ map (fun l => Invalidated l 0 (Some typeA)) [7; 9].
Proof.
  intros w w'.
  assert (Hthis : refs w !! 0 = Some (mkReference (SelString "A") (Some typeA) [7; 9])).
  { vm_compute. reflexivity. }
  pose proof (removedType_invalidates_and_retries busy_resolved busy_invalidated
                0 typeA "A" w (mkReference (SelString "A") (Some typeA) [7; 9])
                Hthis eq_refl
                (tidy_reachable busy_resolved busy_invalidated 0
                   [NewReference (SelString "A"); AddListener 0 7 false;
                    AddListener 0 8 false; AddNode typeA "A"; RemoveNode typeA "A"]))
    as H.
  cbv zeta in H.
  destruct (tryToResolve _ _) as [t'|] eqn:E in H.
  - exfalso. vm_compute in E. discriminate E.
  - destruct H as (_ & H1 & H2 & H3).
    split; [exact H1|]. split; [exact H2|exact H3].
Defined.

Lemma removedType_of_type_selector_witness :
  let w := run busy_resolved busy_invalidated
               [NewReference (SelType typeA); AddListener 0 8 false] empty_world in
  let pass := notifyInvalidated busy_invalidated 0 w in
  let w' := removedType busy_resolved busy_invalidated 0 typeA "A" w in
  getType 0 w' = Some typeA ∧ unsubscribed 0 w'
  ∧ notifs 0 (trace w')
    = notifs 0 (trace w)
      ++ map (fun l => Invalidated l 0 (Some typeA)) [8]
      ++ map (fun l => Resolved l 0 typeA) (listenersOf 0 pass).
Proof.
  intros w.
  apply (removedType_of_type_selector busy_resolved busy_invalidated
           0 typeA "A" w (mkReference (SelType typeA) (Some typeA) [8]) typeA).
  - vm_compute. reflexivity.
  - reflexivity.
  - exact (tidy_reachable busy_resolved busy_invalidated 0
             [NewReference (SelType typeA); AddListener 0 8 false]).
  - reflexivity.
Defined.


Lemma equals_and_hasNotType_complement_witness :
  let equals := ensureNodeIsEquals example_inferType example_strategy identifier
                  (DomainElement 1) (TypeValue typeA2) example_message in
  let hasNot := ensureNodeHasNotType example_inferType example_strategy identifier
                  (DomainElement 1) (TypeValue typeA2) example_message in
  (equals = [] <-> hasNot ≠ [])
  ∧ (length equals + length hasNot = 1)%nat
  ∧ (equals = [] <-> example_strategy "EQUAL_TYPE" typeA typeA2 = None).
Proof.
  apply (equals_and_hasNotType_complement example_inferType example_strategy identifier
           (DomainElement 1) (TypeValue typeA2) example_message typeA typeA2).
  - discriminate.
  - discriminate.
  - reflexivity.
  - reflexivity.
Defined.

Lemma validate_after_registration_witness :
  validate (addValidationRules
              [fun v => ensureNodeIsAssignable example_inferType example_strategy
                          identifier v (TypeValue typeA) example_message]
              (addValidationRules [fun _ => []] [])) (DomainElement 2)
  = validate (addValidationRules
                [fun v => ensureNodeIsAssignable example_inferType example_strategy
                            identifier v (TypeValue typeA) example_message]
                []) (DomainElement 2).
Proof.
  apply (validate_after_registration []
           [fun v => ensureNodeIsAssignable example_inferType example_strategy
                       identifier v (TypeValue typeA) example_message]
           (fun _ => []) (DomainElement 2)).
  reflexivity.
Defined.

Lemma mapType_throws_witness :
  mapType typeA typeA2 typeB typeB (fun _ => None) None
          (Some (mkLoxTypeReference (Some lox_boolean) (Some "Missing")))
  = Return typeB
  ∧ mapType typeA typeA2 typeB typeB (fun _ => Some typeA) (Some typeA)
            (Some (mkLoxTypeReference (Some lox_boolean) (Some "Missing")))
    = mapType typeA typeA2 typeB typeB (fun _ => None) None
              (Some (mkLoxTypeReference (Some lox_boolean) (Some "Missing"))).
Proof.
  destruct (mapType_throws typeA typeA2 typeB typeB (fun _ => None) None
              (Some (mkLoxTypeReference (Some lox_boolean) (Some "Missing")))
              EmptyString) as [_ H].
  apply (H (mkLoxTypeReference (Some lox_boolean) (Some "Missing")) lox_boolean
           (fun _ => Some typeA) (Some typeA)).
  - reflexivity.
  - reflexivity.
Defined.
